(** * Array-slicing work descriptors and the four-phase mark-sweep driver

    A shallow embedding of

    - [gc/g1/g1TaskQueueEntry.hpp]: the bit-packed task-queue entry,
    - [gc/g1/g1ConcurrentMarkObjArrayProcessor.cpp]: the slicing of a
      large object array into power-of-two chunks,
    - [gc/serial/markSweep.inline.hpp]: [MarkSweep::adjust_pointer],
    - [gc/serial/genMarkSweep.cpp]: the driver of a full collection,

    followed by the theorems that relate the embedding to the written
    specification of these components.

    Conventions.  C++ [int] values are integers of [Z] kept in the range
    [-2^31 .. 2^31-1] by [to_int]; [uintptr_t], [uintx] and [size_t]
    values are integers kept in [0 .. 2^64-1] by [to_uintptr].  Addresses
    are [uintptr_t] values.  HotSpot's [assert] is compiled only into
    debug builds (the macro [ASSERT] is defined there); the embedding
    takes the build as a boolean [ASSERT] and a failed assertion ends the
    run with [Fatal]. *)

From Stdlib Require Import ZArith Lia Bool String.
From stdpp Require Import base list gmap.

Local Open Scope Z_scope.

(* ===================================================================== *)
(** * Part I: the embedding                                               *)
(* ===================================================================== *)

(** ** Outcomes of a run *)

(** A run either returns, or the VM aborts on a failed assertion, or the
    model's loop budget is exhausted. *)
Inductive outcome (A : Type) : Type :=
| Done (a : A)
| Fatal (msg : string)
| OutOfFuel.

Arguments Done {A} a.
Arguments Fatal {A} msg%_string.
Arguments OutOfFuel {A}.

Definition obind {A B : Type} (m : outcome A) (k : A -> outcome B) : outcome B :=
  match m with
  | Done a => k a
  | Fatal msg => Fatal msg
  | OutOfFuel => OutOfFuel
  end.

Declare Scope outcome_scope.
Delimit Scope outcome_scope with outcome.
Notation "x <- m ;; k" := (obind m (fun x => k))
  (at level 100, m at next level, right associativity) : outcome_scope.
Notation "m ;;; k" := (obind m (fun _ => k))
  (at level 100, right associativity) : outcome_scope.
Local Open Scope outcome_scope.

Definition is_done {A : Type} (m : outcome A) : bool :=
  match m with Done _ => true | _ => false end.

Definition is_fatal {A : Type} (m : outcome A) : bool :=
  match m with Fatal _ => true | _ => false end.

(** [assert(cond, msg)]: evaluated in debug builds only.  The condition is
    itself a computation, since it may call functions that assert. *)
Definition vmassert (ASSERT : bool) (cond : outcome bool) (msg : string) : outcome unit :=
  if ASSERT then
    b <- cond ;; if (b : bool) then Done tt else Fatal msg
  else Done tt.

(** ** Machine integers *)

(** Conversion to [int] (32 bits, two's complement). *)
Definition to_int (z : Z) : Z := (z + 2 ^ 31) mod 2 ^ 32 - 2 ^ 31.

(** Conversion to [uintptr_t] (64 bits); a negative [int] is sign-extended. *)
Definition to_uintptr (z : Z) : Z := z mod 2 ^ 64.

(** Arithmetic on [int], wrapping around. *)
Definition int_add (a b : Z) : Z := to_int (a + b).

Definition int_sub (a b : Z) : Z := to_int (a - b).

Definition int_mul (a b : Z) : Z := to_int (a * b).

(** [a << n] on [int]; the theorems below only meet shifts by amounts in
    [0 .. 30]. *)
Definition int_shl (a n : Z) : Z := to_int (Z.shiftl a n).

Definition is_int (z : Z) : Prop := - 2 ^ 31 <= z < 2 ^ 31.

Definition is_uintptr (z : Z) : Prop := 0 <= z < 2 ^ 64.

(** Modelled from the spec: the bit macros of
    [utilities/globalDefinitions.hpp] are not among the sources.  Section 3
    (and the layout comment of [g1TaskQueueEntry.hpp]) fixes what they
    yield here: 10 bits for the chunk number, so at most 1024 blocks per
    array, 5 bits for the power, and the remaining 49 bits of the word for
    the reference.  [nth_bit n] is the word with bit [n] alone set. *)
Definition BitsPerWord : Z := 64.

Definition nth_bit (n : Z) : Z :=
  if n >=? BitsPerWord then 0 else to_uintptr (Z.shiftl 1 n).

(** Modelled from the spec: the word with the [n] low bits set (see
    [nth_bit]). *)
Definition right_n_bits (n : Z) : Z := to_uintptr (nth_bit n - 1).

(** ** [G1TaskQueueEntry] *)

Module G1TaskQueueEntry.

(** Everything is encoded into the one field [_val]. *)
Record entry : Type := Entry { _val : Z }.

Definition OopTag : Z := 0.
Definition NarrowOopTag : Z := 1.
Definition TagMask : Z := 1.

Definition chunk_bits : Z := 10.
Definition pow_bits : Z := 5.
Definition oop_bits : Z := 8 * 8 - chunk_bits - pow_bits.

Definition oop_shift : Z := 0.
Definition pow_shift : Z := oop_bits.
Definition chunk_shift : Z := oop_bits + pow_bits.

Definition oop_extract_mask : Z := to_uintptr (right_n_bits oop_bits - 3).
Definition chunk_pow_extract_mask : Z := to_uintptr (Z.lnot (right_n_bits oop_bits)).

Definition chunk_range_mask : Z := to_int (right_n_bits chunk_bits).
Definition pow_range_mask : Z := to_int (right_n_bits pow_bits).

Definition has_tag (val tag : Z) : bool := Z.land val TagMask =? tag.

Definition decode_is_chunked (val : Z) : bool :=
  negb (Z.land val chunk_pow_extract_mask =? 0).

Definition decode_chunk (val : Z) : Z :=
  to_int (Z.land (Z.shiftr val chunk_shift) chunk_range_mask).

Definition decode_pow (val : Z) : Z :=
  to_int (Z.land (Z.shiftr val pow_shift) pow_range_mask).

Definition encode_oop (p tag : Z) : Z := to_uintptr (p + tag).

Definition encode_chunk (chunk : Z) : Z :=
  to_uintptr (Z.shiftl (to_uintptr chunk) chunk_shift).

Definition encode_pow (pow : Z) : Z :=
  to_uintptr (Z.shiftl (to_uintptr pow) pow_shift).

Definition max_addressable : Z := nth_bit oop_bits.
Definition chunk_size : Z := to_int (nth_bit chunk_bits).

Section Build.
Variable ASSERT : bool.

Definition decode (val tag : Z) : outcome Z :=
  vmassert ASSERT (Done (has_tag val tag)) "precondition" ;;;
  Done (Z.land val oop_extract_mask).

(** The default constructor. *)
Definition new_empty : entry := Entry 0.

(** The three constructors from a plain reference ([oop], [oop*],
    [narrowOop*]) differ only in the tag. *)
Definition new_tagged (o tag : Z) : outcome entry :=
  let enc := encode_oop o tag in
  vmassert ASSERT (d <- decode enc tag ;; Done (d =? o)) "oop encoding should work" ;;;
  vmassert ASSERT (Done (negb (decode_is_chunked enc))) "task should not be chunked" ;;;
  Done (Entry enc).

Definition new_oop (o : Z) : outcome entry := new_tagged o OopTag.
Definition new_oop_ptr (o : Z) : outcome entry := new_tagged o OopTag.
Definition new_narrow_oop_ptr (o : Z) : outcome entry := new_tagged o NarrowOopTag.

(** [G1TaskQueueEntry(oop o, int chunk, int pow)]. *)
Definition new_slice (o chunk pow : Z) : outcome entry :=
  let enc_oop := encode_oop o OopTag in
  let enc_chunk := encode_chunk chunk in
  let enc_pow := encode_pow pow in
  let enc := Z.lor (Z.lor enc_oop enc_chunk) enc_pow in
  vmassert ASSERT (d <- decode enc OopTag ;; Done (d =? o)) "oop encoding should work" ;;;
  vmassert ASSERT (Done (decode_chunk enc =? chunk)) "chunk encoding should work" ;;;
  vmassert ASSERT (Done (decode_pow enc =? pow)) "pow encoding should work" ;;;
  vmassert ASSERT (Done (decode_is_chunked enc)) "task should be chunked" ;;;
  Done (Entry enc).

Definition is_oop_ptr (e : entry) : bool :=
  negb (decode_is_chunked (_val e)) && (Z.land (_val e) NarrowOopTag =? 0).
Definition is_narrow_oop_ptr (e : entry) : bool :=
  negb (decode_is_chunked (_val e)) && negb (Z.land (_val e) NarrowOopTag =? 0).
Definition is_array_slice (e : entry) : bool := decode_is_chunked (_val e).
Definition is_oop (e : entry) : bool := negb (decode_is_chunked (_val e)).
Definition is_null (e : entry) : bool := _val e =? 0.

Definition to_oop_ptr (e : entry) : outcome Z := decode (_val e) OopTag.
Definition to_narrow_oop_ptr (e : entry) : outcome Z := decode (_val e) NarrowOopTag.
Definition to_oop (e : entry) : outcome Z := decode (_val e) OopTag.
Definition chunk (e : entry) : Z := decode_chunk (_val e).
Definition pow (e : entry) : Z := decode_pow (_val e).
End Build.

End G1TaskQueueEntry.

(** ** [G1CMObjArrayProcessor] *)

(** Modelled from the spec: [log2i_graceful] of [utilities/powerOfTwo.hpp]
    is not among the sources.  With the adjustment its caller makes for
    lengths that are not powers of two it yields the covering power of
    section 4.2, step 1, so it is the floor of the binary logarithm of its
    argument read as an unsigned number, and -1 at zero. *)
Definition log2i_graceful (value : Z) : Z :=
  if value =? 0 then -1 else Z.log2 (value mod 2 ^ 32).

Module G1CMObjArrayProcessor.
Import G1TaskQueueEntry.

(** The part of [G1CMTask] the processor talks to: the task queue (top
    of the stack first), and, as ghost history, every entry ever pushed
    (oldest first), every [scan_objArray(array, from, to)] call and
    every [scan_objArray_start(array)] call (both oldest first). *)
Record G1CMTask : Type := Task {
  task_queue : list entry;
  pushed : list entry;
  scanned : list (Z * Z * Z);
  started : list Z
}.

Definition empty_task : G1CMTask := Task [] [] [] [].

Definition push (t : G1CMTask) (e : entry) : G1CMTask :=
  Task (e :: task_queue t) (pushed t ++ [e]) (scanned t) (started t).

Definition set_queue (t : G1CMTask) (q : list entry) : G1CMTask :=
  Task q (pushed t) (scanned t) (started t).

Definition scan_objArray_start (t : G1CMTask) (array : Z) : G1CMTask :=
  Task (task_queue t) (pushed t) (scanned t) (started t ++ [array]).

Section Processor.
(** The build, the flag [ObjArrayMarkingStride] (a [uintx]), and what
    the processor reads from the heap and from the scanning closure:
    none of these is defined in the sources at hand. *)
Variable ASSERT : bool.
Variable ObjArrayMarkingStride : Z.
Variable is_objArray : Z -> bool.
Variable should_be_sliced : Z -> bool.
Variable objArray_length : Z -> Z.
Variable scan_words : Z -> Z -> Z -> Z.

(** [_task->scan_objArray(array, from, to)] returns the number of
    words it processed. *)
Definition scan_objArray (t : G1CMTask) (array from to : Z) : Z * G1CMTask :=
  (scan_words array from to,
   Task (task_queue t) (pushed t) (scanned t ++ [(array, from, to)]) (started t)).

Definition keep_splitting (chunk pow : Z) : bool :=
  (int_shl 1 pow >? to_int ObjArrayMarkingStride)
  && (int_mul chunk 2 <? chunk_size).

(** The [while] loop of [process_obj]; the state is
    [(chunk, pow, last_idx)] and the task. *)
Fixpoint obj_split_loop (fuel : nat) (array len chunk pow last_idx : Z)
    (t : G1CMTask) : outcome (Z * Z * Z * G1CMTask) :=
  if keep_splitting chunk pow then
    match fuel with
    | O => OutOfFuel
    | S fuel =>
        let pow := int_sub pow 1 in
        let left_chunk := int_sub (int_mul chunk 2) 1 in
        let right_chunk := int_mul chunk 2 in
        let left_chunk_end := int_mul left_chunk (int_shl 1 pow) in
        if left_chunk_end <? len then
          e <- new_slice ASSERT array left_chunk pow ;;
          obj_split_loop fuel array len right_chunk pow left_chunk_end (push t e)
        else
          obj_split_loop fuel array len left_chunk pow last_idx t
    end
  else Done (chunk, pow, last_idx, t).

(** The "Handle overflow" block of [process_obj]. *)
Definition handle_overflow (array chunk pow last_idx : Z) (t : G1CMTask)
    : outcome (Z * Z * Z * G1CMTask) :=
  if pow >=? 31 then
    vmassert ASSERT (Done (pow =? 31)) "sanity" ;;;
    let pow := int_sub pow 1 in
    let chunk := 2 in
    let last_idx := int_shl 1 pow in
    e <- new_slice ASSERT array 1 pow ;;
    Done (chunk, pow, last_idx, push t e)
  else Done (chunk, pow, last_idx, t).

(** The loops run at most once per value of [pow], which starts at 31
    or below. *)
Definition loop_fuel : nat := 32.

Definition process_obj (obj : Z) (t : G1CMTask) : outcome (Z * G1CMTask) :=
  vmassert ASSERT (Done (should_be_sliced obj)) "Must be an array object and large" ;;;
  vmassert ASSERT (Done (is_objArray obj)) "expect object array" ;;;
  let array := obj in
  let t := scan_objArray_start t array in
  let len := objArray_length array in
  let bits := log2i_graceful len in
  let bits := if negb (len =? int_shl 1 bits) then int_add bits 1 else bits in
  let last_idx := 0 in
  let chunk := 1 in
  let pow := bits in
  s <- handle_overflow array chunk pow last_idx t ;;
  let '(chunk, pow, last_idx, t) := s in
  s <- obj_split_loop loop_fuel array len chunk pow last_idx t ;;
  let '(chunk, pow, last_idx, t) := s in
  let from := last_idx in
  if from <? len then Done (scan_objArray t array from len)
  else Done (0, t).

(** The [while] loop of [process_slice]; the state is [(chunk, pow)]. *)
Fixpoint slice_split_loop (fuel : nat) (array chunk pow : Z) (t : G1CMTask)
    : outcome (Z * Z * G1CMTask) :=
  if keep_splitting chunk pow then
    match fuel with
    | O => OutOfFuel
    | S fuel =>
        let pow := int_sub pow 1 in
        let chunk := int_mul chunk 2 in
        e <- new_slice ASSERT array (int_sub chunk 1) pow ;;
        slice_split_loop fuel array chunk pow (push t e)
    end
  else Done (chunk, pow, t).

Definition process_slice (obj chunk pow : Z) (t : G1CMTask) : outcome (Z * G1CMTask) :=
  vmassert ASSERT (Done (is_objArray obj)) "expect object array" ;;;
  let array := obj in
  vmassert ASSERT (Done (ObjArrayMarkingStride >? 0)) "sanity" ;;;
  s <- slice_split_loop loop_fuel array chunk pow t ;;
  let '(chunk, pow, t) := s in
  let chunk_size := int_shl 1 pow in
  let from := int_mul (int_sub chunk 1) chunk_size in
  let to := int_mul chunk chunk_size in
  (if ASSERT then
     let len := objArray_length array in
     vmassert ASSERT (Done ((0 <=? from) && (from <? len))) "from is sane" ;;;
     vmassert ASSERT (Done ((0 <? to) && (to <=? len))) "to is sane"
   else Done tt) ;;;
  Done (scan_objArray t array from to).

(** Modelled from the spec: the worker loop that pops entries is not
    among the sources.  By section 4.2, step 5, a chunk descriptor that
    a worker pops is handed to the continue-slicing operation with its
    own [(chunk, pow)].  Plain references are marked by code outside
    this model and are dropped here. *)
Definition process_entry (e : entry) (t : G1CMTask) : outcome G1CMTask :=
  if is_array_slice e then
    obj <- to_oop ASSERT e ;;
    r <- process_slice obj (chunk e) (pow e) t ;;
    Done (snd r)
  else Done t.

(** Modelled from the spec: one worker draining its queue from the top
    until it is empty. *)
Fixpoint drain (fuel : nat) (t : G1CMTask) : outcome G1CMTask :=
  match task_queue t with
  | [] => Done t
  | e :: q =>
      match fuel with
      | O => OutOfFuel
      | S fuel =>
          t' <- process_entry e (set_queue t q) ;;
          drain fuel t'
      end
  end.

(** Modelled from the spec: section 5 leaves the order in which
    entries are taken (popped or stolen) open; [runs t t'] holds when
    [t'] is reached from [t] by processing queued entries in some
    order. *)
Inductive runs : G1CMTask -> G1CMTask -> Prop :=
| runs_refl (t : G1CMTask) : runs t t
| runs_step (t t' t'' : G1CMTask) (q1 q2 : list entry) (e : entry) :
    task_queue t = q1 ++ e :: q2 ->
    process_entry e (set_queue t (q1 ++ q2)) = Done t' ->
    runs t' t'' ->
    runs t t''.

(** The marking of one large array, start to finish. *)
Definition mark_objArray (fuel : nat) (obj : Z) : outcome G1CMTask :=
  r <- process_obj obj empty_task ;;
  drain fuel (snd r).
End Processor.

(** The index range [(chunk-1)*2^pow, chunk*2^pow) a descriptor denotes. *)
Definition chunk_range (e : entry) : Z * Z :=
  ((chunk e - 1) * 2 ^ pow e, chunk e * 2 ^ pow e).

Definition in_range (i : Z) (r : Z * Z) : bool := (fst r <=? i) && (i <? snd r).

(** How many of the ranges contain index [i]. *)
Fixpoint cover_count (i : Z) (rs : list (Z * Z)) : nat :=
  match rs with
  | [] => O
  | r :: rs => ((if in_range i r then 1 else 0) + cover_count i rs)%nat
  end.

Definition scanned_ranges (t : G1CMTask) : list (Z * Z) :=
  map (fun s => (snd (fst s), snd s)) (scanned t).

End G1CMObjArrayProcessor.

(** ** [MarkSweep::adjust_pointer] *)

(** What [adjust_pointer] needs of the slot type [T] ([oop] or
    [narrowOop]): the operations of [CompressedOops] and the encoding a
    store applies, none of which is defined in the sources at hand. *)
Module CompressedOops.

Class HeapOop (T : Type) : Type := {
  is_null : T -> bool;
  decode_not_null : T -> Z;
  encode_not_null : Z -> T
}.

(** A full-width [oop] is its own decoding. *)
#[export] Instance oop_HeapOop : HeapOop Z := {
  is_null := fun o => o =? 0;
  decode_not_null := fun o => o;
  encode_not_null := fun o => o
}.

End CompressedOops.

Module MarkSweep.
Import CompressedOops.

Section AdjustPointer.
Context {T : Type} `{HeapOop T}.

(** The header word of an object, the forwarding table and the heap
    predicates are defined outside the sources at hand. *)
Variable markWord : Type.
Variable is_marked : markWord -> bool.
Variable SlidingForwarding : Type.
Variable is_in : Z -> bool.
Variable is_object_aligned : Z -> bool.
Variable ASSERT : bool.

(** Memory as [adjust_pointer] sees it: reference slots by address and
    object headers by object address. *)
Record memory : Type := Memory {
  slots : gmap Z T;
  marks : gmap Z markWord
}.

Variable forwardee : SlidingForwarding -> memory -> Z -> Z.

Definition oop_load (m : memory) (p : Z) : outcome T :=
  match slots m !! p with
  | Some v => Done v
  | None => Fatal "load from an unmapped slot"
  end.

Definition mark (m : memory) (obj : Z) : outcome markWord :=
  match marks m !! obj with
  | Some w => Done w
  | None => Fatal "no object at this address"
  end.

Definition oop_store (m : memory) (p : Z) (v : Z) : memory :=
  Memory (<[p := encode_not_null v]> (slots m)) (marks m).

Definition adjust_pointer (forwarding : SlidingForwarding) (p : Z) (m : memory)
    : outcome memory :=
  heap_oop <- oop_load m p ;;
  if negb (is_null heap_oop) then
    let obj := decode_not_null heap_oop in
    vmassert ASSERT (Done (is_in obj)) "should be in heap" ;;;
    header <- mark m obj ;;
    if is_marked header then
      let new_obj := forwardee forwarding m obj in
      vmassert ASSERT (Done (negb (new_obj =? 0))) "must be forwarded" ;;;
      vmassert ASSERT (Done (is_object_aligned new_obj)) "oop must be aligned" ;;;
      Done (oop_store m p new_obj)
    else Done m
  else Done m.

(** [AdjustPointerClosure::do_oop_work]. *)
Definition do_oop_work (forwarding : SlidingForwarding) (p : Z) (m : memory)
    : outcome memory :=
  adjust_pointer forwarding p m.
End AdjustPointer.

Arguments memory T markWord : clear implicits.
Arguments Memory {T markWord} slots marks.
Arguments slots {T markWord} m.
Arguments marks {T markWord} m.

End MarkSweep.

(** ** [GenMarkSweep] *)

Module GenMarkSweep.

Inductive phase : Type := Mark | Plan | Adjust | Move.

Inductive generation : Type := young_gen | old_gen.

(** What a collection does, in order, as far as its collaborators and
    an observer are concerned.  [R] is the type of the used regions
    that [save_used_regions] captures. *)
Inductive event (R : Type) : Type :=
| EvTraceHeapBeforeGC
| EvSaveUsedRegions
| EvAllocateStacks
| EvEnter (ph : phase)
| EvLeave (ph : phase)
| EvRestoreMarks
| EvSaveMarks
| EvDeallocateStacks
| EvStringDedupFlush
| EvClearIntoYounger (g : generation) (prev_used : option R)
| EvInvalidateOrClear (g : generation) (prev_used : option R)
| EvPruneScavengableNmethods
| EvUpdateCapacityAndUsed
| EvRecordWholeHeapExamined
| EvTraceHeapAfterGC.

Arguments EvTraceHeapBeforeGC {R}.
Arguments EvSaveUsedRegions {R}.
Arguments EvAllocateStacks {R}.
Arguments EvEnter {R} ph.
Arguments EvLeave {R} ph.
Arguments EvRestoreMarks {R}.
Arguments EvSaveMarks {R}.
Arguments EvDeallocateStacks {R}.
Arguments EvStringDedupFlush {R}.
Arguments EvClearIntoYounger {R} g prev_used.
Arguments EvInvalidateOrClear {R} g prev_used.
Arguments EvPruneScavengableNmethods {R}.
Arguments EvUpdateCapacityAndUsed {R}.
Arguments EvRecordWholeHeapExamined {R}.
Arguments EvTraceHeapAfterGC {R}.

(** The collaborators of section 6, over a heap of type [H]: none of
    them is defined in the sources at hand.  Those that take part in
    marking see the heap and the marking stack. *)
Record collaborators (H R : Type) : Type := Collaborators {
  is_at_safepoint : bool;
  should_clear_all_soft_refs : bool;
  COMPILER2_OR_JVMCI : bool;
  HeapWordSize : Z;
  sizeof_PreservedMark : Z;
  used_regions : H -> R;
  young_used : H -> Z;
  gather_scratch : H -> option (Z * Z);
  release_scratch : H -> H;
  process_roots_mark : H -> list Z -> H * list Z;
  process_discovered_references : H -> list Z -> H * list Z;
  weak_oops_do : H -> H;
  class_unloading : H -> H;
  prepare_for_compaction : H -> H;
  process_roots_adjust : H -> H;
  gen_process_weak_roots : H -> H;
  adjust_marks : H -> H;
  generations_adjust_pointers : H -> H;
  generations_compact : H -> H;
  restore_preserved_marks : H -> H;
  save_marks : H -> H
}.

Arguments is_at_safepoint {H R} c.
Arguments should_clear_all_soft_refs {H R} c.
Arguments COMPILER2_OR_JVMCI {H R} c.
Arguments HeapWordSize {H R} c.
Arguments sizeof_PreservedMark {H R} c.
Arguments used_regions {H R} c h.
Arguments young_used {H R} c h.
Arguments gather_scratch {H R} c h.
Arguments release_scratch {H R} c h.
Arguments process_roots_mark {H R} c h ms.
Arguments process_discovered_references {H R} c h ms.
Arguments weak_oops_do {H R} c h.
Arguments class_unloading {H R} c h.
Arguments prepare_for_compaction {H R} c h.
Arguments process_roots_adjust {H R} c h.
Arguments gen_process_weak_roots {H R} c h.
Arguments adjust_marks {H R} c h.
Arguments generations_adjust_pointers {H R} c h.
Arguments generations_compact {H R} c h.
Arguments restore_preserved_marks {H R} c h.
Arguments save_marks {H R} c h.

(** The static state of [MarkSweep], the heap, the used regions saved
    by the generations, and the history of events. *)
Record state (H R : Type) : Type := State {
  heap : H;
  prev_used_regions : option R;
  derived_pointers_active : bool;
  _ref_processor : Z;
  _total_invocations : Z;
  _preserved_count_max : Z;
  _preserved_marks : Z;
  _preserved_count : Z;
  _preserved_scratch : list (Z * Z);
  _preserved_overflow_stack : list (Z * Z);
  _marking_stack : list Z;
  _objarray_stack : list (Z * Z);
  trace : list (event R)
}.

Arguments State {H R}.
Arguments heap {H R} s.
Arguments prev_used_regions {H R} s.
Arguments derived_pointers_active {H R} s.
Arguments _ref_processor {H R} s.
Arguments _total_invocations {H R} s.
Arguments _preserved_count_max {H R} s.
Arguments _preserved_marks {H R} s.
Arguments _preserved_count {H R} s.
Arguments _preserved_scratch {H R} s.
Arguments _preserved_overflow_stack {H R} s.
Arguments _marking_stack {H R} s.
Arguments _objarray_stack {H R} s.
Arguments trace {H R} s.

Section Collection.
Context {H R : Type}.
Variable ASSERT : bool.
Variable gch : collaborators H R.

Definition log (ev : event R) (s : state H R) : state H R :=
  State (heap s) (prev_used_regions s) (derived_pointers_active s)
        (_ref_processor s) (_total_invocations s) (_preserved_count_max s)
        (_preserved_marks s) (_preserved_count s) (_preserved_scratch s)
        (_preserved_overflow_stack s) (_marking_stack s) (_objarray_stack s)
        (trace s ++ [ev]).

Definition set_heap (h : H) (s : state H R) : state H R :=
  State h (prev_used_regions s) (derived_pointers_active s)
        (_ref_processor s) (_total_invocations s) (_preserved_count_max s)
        (_preserved_marks s) (_preserved_count s) (_preserved_scratch s)
        (_preserved_overflow_stack s) (_marking_stack s) (_objarray_stack s)
        (trace s).

Definition set_marking_stack (ms : list Z) (s : state H R) : state H R :=
  State (heap s) (prev_used_regions s) (derived_pointers_active s)
        (_ref_processor s) (_total_invocations s) (_preserved_count_max s)
        (_preserved_marks s) (_preserved_count s) (_preserved_scratch s)
        (_preserved_overflow_stack s) ms (_objarray_stack s)
        (trace s).

Definition set_ref_processor (rp : Z) (s : state H R) : state H R :=
  State (heap s) (prev_used_regions s) (derived_pointers_active s)
        rp (_total_invocations s) (_preserved_count_max s)
        (_preserved_marks s) (_preserved_count s) (_preserved_scratch s)
        (_preserved_overflow_stack s) (_marking_stack s) (_objarray_stack s)
        (trace s).

Definition set_derived_pointers_active (b : bool) (s : state H R) : state H R :=
  State (heap s) (prev_used_regions s) b
        (_ref_processor s) (_total_invocations s) (_preserved_count_max s)
        (_preserved_marks s) (_preserved_count s) (_preserved_scratch s)
        (_preserved_overflow_stack s) (_marking_stack s) (_objarray_stack s)
        (trace s).

(** [_total_invocations++] on a [uint]. *)
Definition increment_invocations (s : state H R) : state H R :=
  State (heap s) (prev_used_regions s) (derived_pointers_active s)
        (_ref_processor s) ((_total_invocations s + 1) mod 2 ^ 32)
        (_preserved_count_max s)
        (_preserved_marks s) (_preserved_count s) (_preserved_scratch s)
        (_preserved_overflow_stack s) (_marking_stack s) (_objarray_stack s)
        (trace s).

(** [gch->save_used_regions()]: every generation saves its used region. *)
Definition save_used_regions (s : state H R) : state H R :=
  log EvSaveUsedRegions
    (State (heap s) (Some (used_regions gch (heap s))) (derived_pointers_active s)
           (_ref_processor s) (_total_invocations s) (_preserved_count_max s)
           (_preserved_marks s) (_preserved_count s) (_preserved_scratch s)
           (_preserved_overflow_stack s) (_marking_stack s) (_objarray_stack s)
           (trace s)).

(** [gather_scratch] yields the first scratch block, as its address
    and its [num_words], or nothing. *)
Definition allocate_stacks (s : state H R) : state H R :=
  let scratch := gather_scratch gch (heap s) in
  let preserved_count_max :=
    match scratch with
    | Some (_, num_words) =>
        to_uintptr (num_words * HeapWordSize gch) / sizeof_PreservedMark gch
    | None => 0
    end in
  let preserved_marks :=
    match scratch with Some (addr, _) => addr | None => 0 end in
  log EvAllocateStacks
    (State (heap s) (prev_used_regions s) (derived_pointers_active s)
           (_ref_processor s) (_total_invocations s) preserved_count_max
           preserved_marks 0 []
           (_preserved_overflow_stack s) (_marking_stack s) (_objarray_stack s)
           (trace s)).

Definition deallocate_stacks (s : state H R) : state H R :=
  log EvDeallocateStacks
    (State (release_scratch gch (heap s)) (prev_used_regions s)
           (derived_pointers_active s)
           (_ref_processor s) (_total_invocations s) (_preserved_count_max s)
           (_preserved_marks s) (_preserved_count s) (_preserved_scratch s)
           [] [] []
           (trace s)).

(** Modelled from the spec: [MarkSweep::preserve_mark] is not among the
    sources.  By section 3 a preserved-mark record goes to the scratch
    region while its bounded capacity lasts and spills to the
    dynamically growable store after that. *)
Definition preserve_mark (obj mark : Z) (s : state H R) : state H R :=
  if _preserved_count s <? _preserved_count_max s then
    State (heap s) (prev_used_regions s) (derived_pointers_active s)
          (_ref_processor s) (_total_invocations s) (_preserved_count_max s)
          (_preserved_marks s) (_preserved_count s + 1)
          (_preserved_scratch s ++ [(obj, mark)])
          (_preserved_overflow_stack s) (_marking_stack s) (_objarray_stack s)
          (trace s)
  else
    State (heap s) (prev_used_regions s) (derived_pointers_active s)
          (_ref_processor s) (_total_invocations s) (_preserved_count_max s)
          (_preserved_marks s) (_preserved_count s) (_preserved_scratch s)
          ((obj, mark) :: _preserved_overflow_stack s)
          (_marking_stack s) (_objarray_stack s)
          (trace s).

(** The four phases.  The assertions embedded are those written in
    [genMarkSweep.cpp].  What a collaborator checks in its own code lies
    outside the sources at hand and is not embedded (so
    [ClassLoaderDataGraph::verify_claimed_marks_cleared], a debug-build
    verification with which phases 1 and 3 start, and the use that
    reference processing makes of the installed reference processor):
    a collaborator is taken to return. *)
Definition mark_sweep_phase1 (clear_all_softrefs : bool) (s : state H R)
    : outcome (state H R) :=
  let s := log (EvEnter Mark) s in
  (* strong roots, followed through the marking stack *)
  let r := process_roots_mark gch (heap s) (_marking_stack s) in
  let s := set_marking_stack (snd r) (set_heap (fst r) s) in
  (* reference objects found during marking *)
  let r := process_discovered_references gch (heap s) (_marking_stack s) in
  let s := set_marking_stack (snd r) (set_heap (fst r) s) in
  (* this is the point where the entire marking should have completed *)
  vmassert ASSERT (Done (match _marking_stack s with [] => true | _ => false end))
           "Marking should have completed" ;;;
  let s := set_heap (weak_oops_do gch (heap s)) s in
  let s := set_heap (class_unloading gch (heap s)) s in
  Done (log (EvLeave Mark) s).

Definition mark_sweep_phase2 (s : state H R) : state H R :=
  let s := log (EvEnter Plan) s in
  let s := set_heap (prepare_for_compaction gch (heap s)) s in
  log (EvLeave Plan) s.

Definition mark_sweep_phase3 (s : state H R) : state H R :=
  let s := log (EvEnter Adjust) s in
  let s := set_heap (process_roots_adjust gch (heap s)) s in
  let s := set_heap (gen_process_weak_roots gch (heap s)) s in
  let s := set_heap (adjust_marks gch (heap s)) s in
  let s := set_heap (generations_adjust_pointers gch (heap s)) s in
  log (EvLeave Adjust) s.

Definition mark_sweep_phase4 (s : state H R) : state H R :=
  let s := log (EvEnter Move) s in
  let s := set_heap (generations_compact gch (heap s)) s in
  log (EvLeave Move) s.

Definition restore_marks (s : state H R) : state H R :=
  log EvRestoreMarks (set_heap (restore_preserved_marks gch (heap s)) s).

Definition invoke_at_safepoint (rp : Z) (clear_all_softrefs : bool)
    (s : state H R) : outcome (state H R) :=
  vmassert ASSERT (Done (is_at_safepoint gch)) "must be at a safepoint" ;;;
  (if should_clear_all_soft_refs gch then
     vmassert ASSERT (Done clear_all_softrefs) "Policy should have been checked earlier"
   else Done tt) ;;;
  (* hook up weak ref data so it can be used during Mark-Sweep *)
  vmassert ASSERT (Done (_ref_processor s =? 0)) "no stomping" ;;;
  vmassert ASSERT (Done (negb (rp =? 0))) "should be non-null" ;;;
  let s := set_ref_processor rp s in
  let s := log EvTraceHeapBeforeGC s in
  let s := increment_invocations s in
  let s := save_used_regions s in
  let s := allocate_stacks s in
  s <- mark_sweep_phase1 clear_all_softrefs s ;;
  let s := mark_sweep_phase2 s in
  (* don't add any more derived pointers during phase3 *)
  s <- (if COMPILER2_OR_JVMCI gch then
          vmassert ASSERT (Done (derived_pointers_active s)) "Sanity" ;;;
          Done (set_derived_pointers_active false s)
        else Done s) ;;
  let s := mark_sweep_phase3 s in
  let s := mark_sweep_phase4 s in
  let s := restore_marks s in
  let s := log EvSaveMarks (set_heap (save_marks gch (heap s)) s) in
  let s := deallocate_stacks s in
  let s := log EvStringDedupFlush s in
  (* clear/invalidate below make use of the used regions saved earlier *)
  let s :=
    if young_used gch (heap s) =? 0 then
      log (EvClearIntoYounger old_gen (prev_used_regions s)) s
    else
      log (EvInvalidateOrClear old_gen (prev_used_regions s)) s in
  let s := log EvPruneScavengableNmethods s in
  (* refs processing: clean slate *)
  let s := set_ref_processor 0 s in
  let s := log EvUpdateCapacityAndUsed s in
  let s := log EvRecordWholeHeapExamined s in
  Done (log EvTraceHeapAfterGC s).
End Collection.

End GenMarkSweep.

(** ** Sample collaborators *)

(** A toy heap for the instances below: the words in use in the young
    and in the old generation.  Compaction moves everything into the old
    generation; marking leaves no work behind. *)
Definition sample_gch : GenMarkSweep.collaborators (Z * Z) (Z * Z) :=
  GenMarkSweep.Collaborators (Z * Z) (Z * Z)
    true false true 8 16
    (fun h => h) (fun h => fst h)
    (fun _ => None) (fun h => h)
    (fun h _ => (h, [])) (fun h _ => (h, []))
    (fun h => h) (fun h => h) (fun h => h) (fun h => h) (fun h => h)
    (fun h => h) (fun h => h)
    (fun h => (0, fst h + snd h))
    (fun h => h) (fun h => h).

(** The same, except that root processing leaves an object on the
    marking stack, which reference processing then drains. *)
Definition lazy_roots_gch : GenMarkSweep.collaborators (Z * Z) (Z * Z) :=
  GenMarkSweep.Collaborators (Z * Z) (Z * Z)
    true false true 8 16
    (fun h => h) (fun h => fst h)
    (fun _ => None) (fun h => h)
    (fun h ms => (h, 4096 :: ms)) (fun h _ => (h, []))
    (fun h => h) (fun h => h) (fun h => h) (fun h => h) (fun h => h)
    (fun h => h) (fun h => h)
    (fun h => (0, fst h + snd h))
    (fun h => h) (fun h => h).

(** The same as [sample_gch], except that compaction leaves the young
    generation as it is. *)
Definition in_place_gch : GenMarkSweep.collaborators (Z * Z) (Z * Z) :=
  GenMarkSweep.Collaborators (Z * Z) (Z * Z)
    true false true 8 16
    (fun h => h) (fun h => fst h)
    (fun _ => None) (fun h => h)
    (fun h _ => (h, [])) (fun h _ => (h, []))
    (fun h => h) (fun h => h) (fun h => h) (fun h => h) (fun h => h)
    (fun h => h) (fun h => h)
    (fun h => h)
    (fun h => h) (fun h => h).

(** The same as [sample_gch], except that the old generation lends a
    scratch block of 100 words at address 8192. *)
Definition scratch_gch : GenMarkSweep.collaborators (Z * Z) (Z * Z) :=
  GenMarkSweep.Collaborators (Z * Z) (Z * Z)
    true false true 8 16
    (fun h => h) (fun h => fst h)
    (fun _ => Some (8192, 100)) (fun h => h)
    (fun h _ => (h, [])) (fun h _ => (h, []))
    (fun h => h) (fun h => h) (fun h => h) (fun h => h) (fun h => h)
    (fun h => h) (fun h => h)
    (fun h => (0, fst h + snd h))
    (fun h => h) (fun h => h).

Definition sample_state : GenMarkSweep.state (Z * Z) (Z * Z) :=
  GenMarkSweep.State (100, 200) None true 0 0 0 0 0 [] [] [] [] [].

(** ** Vocabulary of the statements *)

Import G1TaskQueueEntry.
Import G1CMObjArrayProcessor.
Import GenMarkSweep.

(** An address the encoding can hold: below [max_addressable] and with
    the two low bits clear, which [oop_extract_mask] removes. *)
Definition encodable (p : Z) : Prop := 0 <= p < 2 ^ 49 /\ p mod 4 = 0.

(** The entry the chunked constructor builds for an encodable array. *)
Definition slice_entry (array chunk pow : Z) : entry :=
  Entry (array + pow * 2 ^ 49 + chunk * 2 ^ 54).

(** The covering power computed at the start of [process_obj]. *)
Definition covering_power (len : Z) : Z :=
  let bits := log2i_graceful len in
  if negb (len =? int_shl 1 bits) then int_add bits 1 else bits.

(** Whether a range contains index [i], as a count. *)
Definition cnt (i : Z) (r : Z * Z) : nat := if in_range i r then 1%nat else 0%nat.

(** The task after pushing the entries of [new], first to last. *)
Definition push_all (t : G1CMTask) (new : list entry) : G1CMTask :=
  fold_left push new t.

(** The number of indices the queued chunks span, by their powers. *)
Fixpoint queue_weight (q : list entry) : Z :=
  match q with
  | [] => 0
  | e :: q => 2 ^ pow e + queue_weight q
  end.

(** A descriptor of a full chunk of [array]: it lies within the array and
    its power is at most [P]. *)
Definition good_entry (array len P : Z) (e : entry) : Prop :=
  exists c p, e = slice_entry array c p
    /\ 1 <= c < 1024 /\ 0 <= p <= P /\ c * 2 ^ p <= len.

(** A scan that stays within the array. *)
Definition sane_scan (array len : Z) (s : Z * Z * Z) : Prop :=
  fst (fst s) = array
  /\ 0 <= snd (fst s) < len /\ 0 < snd s <= len /\ snd (fst s) < snd s.

(** How often index [i] is accounted for: scanned already, or within a
    chunk that is still queued. *)
Definition covered (i : Z) (t : G1CMTask) : nat :=
  (cover_count i (scanned_ranges t)
   + cover_count i (map chunk_range (task_queue t)))%nat.

(** What every processing step preserves. *)
Definition advances (array len : Z) (t t' : G1CMTask) : Prop :=
  Forall (good_entry array len 30) (task_queue t')
  /\ (forall i, covered i t' = covered i t)
  /\ (exists new, pushed t' = pushed t ++ new
                  /\ Forall (good_entry array len 29) new)
  /\ (exists ns, scanned t' = scanned t ++ ns /\ Forall (sane_scan array len) ns)
  /\ started t' = started t.

(** A queued descriptor that denotes a full chunk of the array. *)
Definition full_chunk (ASSERT : bool) (array len : Z) (e : entry) : Prop :=
  1 <= chunk e < 1024 /\ 0 <= pow e <= 30
  /\ 0 <= fst (chunk_range e) < snd (chunk_range e)
  /\ snd (chunk_range e) <= len
  /\ to_oop ASSERT e = Done array
  /\ is_array_slice e = true.

(** The events of a completed collection, in order; the card-table event
    depends on the heap the collection leaves behind and carries the used
    regions saved on entry. *)
Definition collection_events {H R : Type} (gch : collaborators H R)
    (h_before h_after : H) : list (event R) :=
  [ EvTraceHeapBeforeGC; EvSaveUsedRegions; EvAllocateStacks;
    EvEnter Mark; EvLeave Mark;
    EvEnter Plan; EvLeave Plan;
    EvEnter Adjust; EvLeave Adjust;
    EvEnter Move; EvLeave Move;
    EvRestoreMarks; EvSaveMarks; EvDeallocateStacks; EvStringDedupFlush;
    (if young_used gch h_after =? 0
     then EvClearIntoYounger old_gen (Some (used_regions gch h_before))
     else EvInvalidateOrClear old_gen (Some (used_regions gch h_before)));
    EvPruneScavengableNmethods; EvUpdateCapacityAndUsed;
    EvRecordWholeHeapExamined; EvTraceHeapAfterGC ].

(** The events that concern the order of the phases and of what follows
    them. *)
Definition is_phase_event {R : Type} (ev : event R) : bool :=
  match ev with
  | EvEnter _ | EvLeave _ | EvRestoreMarks | EvDeallocateStacks => true
  | _ => false
  end.

(** The two calls on the card table. *)
Definition is_card_table_event {R : Type} (ev : event R) : bool :=
  match ev with
  | EvClearIntoYounger _ _ | EvInvalidateOrClear _ _ => true
  | _ => false
  end.

(** The stack of marking work after root processing and after
    reference processing, as the collaborators leave it. *)
Definition stack_after_roots {H R : Type} (gch : collaborators H R)
    (s : state H R) : list Z :=
  snd (process_roots_mark gch (heap s) (_marking_stack s)).

Definition stack_after_reference_processing {H R : Type}
    (gch : collaborators H R) (s : state H R) : list Z :=
  let r := process_roots_mark gch (heap s) (_marking_stack s) in
  snd (process_discovered_references gch (fst r) (snd r)).

(** What the assertions met by a collection demand of the state on
    entry and of the collaborators. *)
Definition collection_asserts_hold {H R : Type} (gch : collaborators H R)
    (rp : Z) (clear_all_softrefs : bool) (s : state H R) : Prop :=
  is_at_safepoint gch = true
  /\ (should_clear_all_soft_refs gch = true -> clear_all_softrefs = true)
  /\ _ref_processor s = 0
  /\ rp <> 0
  /\ stack_after_reference_processing gch s = []
  /\ (COMPILER2_OR_JVMCI gch = true -> derived_pointers_active s = true).

(** The descriptors [process_slice] pushes for the chunk [(c, p)] when
    it halves [n] times: the left halves [(c*2^k - 1, p - k)], for [k]
    from 1 to [n]. *)
Definition left_halves (array c p : Z) (n : nat) : list entry :=
  map (fun k => slice_entry array (c * 2 ^ Z.of_nat k - 1) (p - Z.of_nat k))
      (seq 1 n).

(** A scan of at most [stride] elements, or of less than one 511th of
    the array. *)
Definition short_scan (stride len : Z) (s : Z * Z * Z) : Prop :=
  snd s - snd (fst s) <= stride \/ 511 * (snd s - snd (fst s)) < len.

(* ===================================================================== *)
(** * Part II: theorems                                                   *)
(* ===================================================================== *)

(** ** Machine arithmetic *)

Lemma to_int_small (z : Z) : is_int z -> to_int z = z.
Proof.
  unfold is_int, to_int. intros H.
  rewrite Z.mod_small by lia. lia.
Qed.

Lemma to_int_range (z : Z) : is_int (to_int z).
Proof.
  unfold is_int, to_int.
  pose proof (Z.mod_pos_bound (z + 2 ^ 31) (2 ^ 32) ltac:(lia)). lia.
Qed.

Lemma to_uintptr_small (z : Z) : is_uintptr z -> to_uintptr z = z.
Proof. unfold is_uintptr, to_uintptr. intros H. now rewrite Z.mod_small. Qed.

Lemma to_uintptr_range (z : Z) : is_uintptr (to_uintptr z).
Proof. unfold is_uintptr, to_uintptr. apply Z.mod_pos_bound. lia. Qed.

(** Bits of a number below [2^k] vanish from position [k] on. *)
Lemma testbit_above (x k n : Z) :
  0 <= x < 2 ^ k -> 0 <= k <= n -> Z.testbit x n = false.
Proof.
  intros Hx Hk.
  destruct (Z.eq_dec x 0) as [->|Hne]; [apply Z.testbit_0_l|].
  apply Z.bits_above_log2; [lia|].
  assert (Z.log2 x < k) by (apply Z.log2_lt_pow2; lia). lia.
Qed.

(** Two fields that do not overlap are combined by [|] as by [+]. *)
Lemma lor_field_add (a b k : Z) :
  0 <= k -> 0 <= a < 2 ^ k -> Z.lor a (b * 2 ^ k) = a + b * 2 ^ k.
Proof.
  intros Hk Ha.
  rewrite <- Z.lxor_lor, Z.add_nocarry_lxor; try reflexivity.
  all: apply Z.bits_inj'; intros n Hn;
    rewrite Z.land_spec, Z.bits_0, <- Z.shiftl_mul_pow2 by lia;
    destruct (Z.lt_ge_cases n k);
    [ rewrite Z.shiftl_spec_low by lia; apply andb_false_r
    | rewrite (testbit_above a k n) by lia; reflexivity ].
Qed.

(** Masking with a run of [k] ones that starts at bit [j]. *)
Lemma land_ones_shifted (x j k : Z) :
  0 <= j -> 0 <= k ->
  Z.land x (Z.shiftl (Z.ones k) j) = (x / 2 ^ j) mod 2 ^ k * 2 ^ j.
Proof.
  intros Hj Hk.
  rewrite <- Z.land_ones, <- Z.shiftr_div_pow2, <- Z.shiftl_mul_pow2 by lia.
  apply Z.bits_inj'; intros n Hn.
  rewrite Z.land_spec.
  destruct (Z.lt_ge_cases n j).
  - rewrite !Z.shiftl_spec_low by lia. apply andb_false_r.
  - rewrite !Z.shiftl_spec, Z.land_spec, Z.shiftr_spec by lia.
    now replace (n - j + j) with n by lia.
Qed.

(** ** The task-queue entry encoding *)

Lemma max_addressable_eq : max_addressable = 2 ^ 49.
Proof. reflexivity. Qed.

Lemma chunk_size_eq : chunk_size = 1024.
Proof. reflexivity. Qed.

Lemma decode_chunk_eq (val : Z) : decode_chunk val = (val / 2 ^ 54) mod 2 ^ 10.
Proof.
  unfold decode_chunk.
  change chunk_range_mask with (Z.ones 10). change chunk_shift with 54.
  rewrite Z.land_ones, Z.shiftr_div_pow2 by lia.
  apply to_int_small. unfold is_int.
  pose proof (Z.mod_pos_bound (val / 2 ^ 54) (2 ^ 10) ltac:(lia)). lia.
Qed.

Lemma decode_pow_eq (val : Z) : decode_pow val = (val / 2 ^ 49) mod 2 ^ 5.
Proof.
  unfold decode_pow.
  change pow_range_mask with (Z.ones 5). change pow_shift with 49.
  rewrite Z.land_ones, Z.shiftr_div_pow2 by lia.
  apply to_int_small. unfold is_int.
  pose proof (Z.mod_pos_bound (val / 2 ^ 49) (2 ^ 5) ltac:(lia)). lia.
Qed.

Lemma decode_chunk_range (val : Z) : 0 <= decode_chunk val < 1024.
Proof.
  rewrite decode_chunk_eq.
  pose proof (Z.mod_pos_bound (val / 2 ^ 54) (2 ^ 10) ltac:(lia)). lia.
Qed.

Lemma decode_pow_range (val : Z) : 0 <= decode_pow val < 32.
Proof.
  rewrite decode_pow_eq.
  pose proof (Z.mod_pos_bound (val / 2 ^ 49) (2 ^ 5) ltac:(lia)). lia.
Qed.

Lemma land_oop_extract_mask (val : Z) :
  Z.land val oop_extract_mask = (val / 2 ^ 2) mod 2 ^ 47 * 2 ^ 2.
Proof.
  change oop_extract_mask with (Z.shiftl (Z.ones 47) 2).
  apply land_ones_shifted; lia.
Qed.

Lemma land_chunk_pow_extract_mask (val : Z) :
  Z.land val chunk_pow_extract_mask = (val / 2 ^ 49) mod 2 ^ 15 * 2 ^ 49.
Proof.
  change chunk_pow_extract_mask with (Z.shiftl (Z.ones 15) 49).
  apply land_ones_shifted; lia.
Qed.

Lemma has_tag_eq (val tag : Z) : has_tag val tag = (val mod 2 =? tag).
Proof.
  unfold has_tag. change TagMask with (Z.ones 1).
  now rewrite Z.land_ones by lia.
Qed.

(** The word built by the chunked constructor, as a sum of its fields. *)
Lemma slice_word (o chunk pow : Z) :
  0 <= o < 2 ^ 49 -> 0 <= chunk < 1024 -> 0 <= pow < 32 ->
  Z.lor (Z.lor (encode_oop o OopTag) (encode_chunk chunk)) (encode_pow pow)
  = o + pow * 2 ^ 49 + chunk * 2 ^ 54.
Proof.
  intros Ho Hc Hp.
  unfold encode_oop, encode_chunk, encode_pow, OopTag.
  change chunk_shift with 54. change pow_shift with 49.
  rewrite (to_uintptr_small chunk), (to_uintptr_small pow) by (unfold is_uintptr; lia).
  rewrite !Z.shiftl_mul_pow2 by lia.
  rewrite !to_uintptr_small by (unfold is_uintptr; lia).
  rewrite Z.add_0_r.
  rewrite <- Z.lor_assoc, (Z.lor_comm (chunk * _)), Z.lor_assoc.
  rewrite (lor_field_add o pow 49) by lia.
  rewrite (lor_field_add _ chunk 54) by lia.
  reflexivity.
Qed.

Lemma decode_done (ASSERT : bool) (val tag o : Z) :
  val mod 2 = tag -> (val / 2 ^ 2) mod 2 ^ 47 * 2 ^ 2 = o ->
  decode ASSERT val tag = Done o.
Proof.
  intros Ht Ho. unfold decode, vmassert.
  rewrite has_tag_eq, land_oop_extract_mask, Ho.
  destruct ASSERT; simpl; [|reflexivity].
  apply Z.eqb_eq in Ht. now rewrite Ht.
Qed.

Lemma new_slice_done (ASSERT : bool) (o chunk pow : Z) :
  encodable o -> 1 <= chunk < 1024 -> 0 <= pow < 32 ->
  new_slice ASSERT o chunk pow = Done (Entry (o + pow * 2 ^ 49 + chunk * 2 ^ 54)).
Proof.
  intros [Ho Ha] Hc Hp. unfold new_slice.
  rewrite slice_word by lia.
  set (w := o + pow * 2 ^ 49 + chunk * 2 ^ 54).
  assert (Hd : decode ASSERT w OopTag = Done o).
  { apply decode_done; unfold OopTag, w; Z.div_mod_to_equations; lia. }
  assert (Hck : decode_chunk w = chunk).
  { rewrite decode_chunk_eq. unfold w. Z.div_mod_to_equations; lia. }
  assert (Hpw : decode_pow w = pow).
  { rewrite decode_pow_eq. unfold w. Z.div_mod_to_equations; lia. }
  assert (Hch : decode_is_chunked w = true).
  { unfold decode_is_chunked. rewrite land_chunk_pow_extract_mask.
    apply negb_true_iff, Z.eqb_neq. unfold w. Z.div_mod_to_equations; lia. }
  unfold vmassert. destruct ASSERT; [|reflexivity].
  rewrite Hd, Hck, Hpw, Hch. simpl. now rewrite !Z.eqb_refl.
Qed.

Lemma slice_entry_fields (ASSERT : bool) (array c p : Z) :
  encodable array -> 1 <= c < 1024 -> 0 <= p < 32 ->
  chunk (slice_entry array c p) = c
  /\ pow (slice_entry array c p) = p
  /\ to_oop ASSERT (slice_entry array c p) = Done array
  /\ is_array_slice (slice_entry array c p) = true.
Proof.
  intros [Ho Ha] Hc Hp.
  unfold to_oop, chunk, pow, is_array_slice, slice_entry; cbn [_val].
  set (w := array + p * 2 ^ 49 + c * 2 ^ 54).
  split; [|split; [|split]].
  - rewrite decode_chunk_eq. unfold w. Z.div_mod_to_equations; lia.
  - rewrite decode_pow_eq. unfold w. Z.div_mod_to_equations; lia.
  - apply decode_done; unfold OopTag, w; Z.div_mod_to_equations; lia.
  - unfold decode_is_chunked. rewrite land_chunk_pow_extract_mask.
    apply negb_true_iff, Z.eqb_neq. unfold w. Z.div_mod_to_equations; lia.
Qed.

Lemma new_tagged_done (ASSERT : bool) (ref tag : Z) :
  encodable ref -> 0 <= tag <= 1 ->
  new_tagged ASSERT ref tag = Done (Entry (ref + tag))
  /\ decode ASSERT (ref + tag) tag = Done ref
  /\ decode_is_chunked (ref + tag) = false.
Proof.
  intros [Hr Ha] Ht.
  assert (Hd : decode ASSERT (ref + tag) tag = Done ref).
  { apply decode_done; Z.div_mod_to_equations; lia. }
  assert (Hch : decode_is_chunked (ref + tag) = false).
  { unfold decode_is_chunked. rewrite land_chunk_pow_extract_mask.
    apply negb_false_iff, Z.eqb_eq. Z.div_mod_to_equations; lia. }
  split; [|split]; trivial.
  unfold new_tagged, encode_oop.
  rewrite to_uintptr_small by (unfold is_uintptr; lia).
  unfold vmassert. destruct ASSERT; [|reflexivity].
  rewrite Hd, Hch. simpl. now rewrite Z.eqb_refl.
Qed.

(** C2.  Round trip of the encoding.  For an array address within the
    bit budget (below 2^49, two low bits clear), a chunk number in
    [1 .. 1023] and a power in [0 .. 31], the chunked constructor returns
    an entry whose [to_oop], [chunk] and [pow] are the three arguments and
    which [is_array_slice].  For a plain reference within the same budget,
    each of the three plain constructors returns an entry that decodes to
    the reference (through the accessor of its own tag) and is not an
    array slice.  This holds in debug and in product builds. *)
Theorem entry_round_trip (ASSERT : bool) (array chunk pow ref : Z) :
  encodable array -> 1 <= chunk < 1024 -> 0 <= pow < 32 -> encodable ref ->
  (exists e, new_slice ASSERT array chunk pow = Done e
     /\ to_oop ASSERT e = Done array
     /\ G1TaskQueueEntry.chunk e = chunk
     /\ G1TaskQueueEntry.pow e = pow
     /\ is_array_slice e = true)
  /\ (exists e, new_oop ASSERT ref = Done e
     /\ to_oop ASSERT e = Done ref
     /\ is_array_slice e = false /\ is_oop_ptr e = true)
  /\ (exists e, new_oop_ptr ASSERT ref = Done e
     /\ to_oop_ptr ASSERT e = Done ref
     /\ is_array_slice e = false /\ is_oop_ptr e = true)
  /\ (exists e, new_narrow_oop_ptr ASSERT ref = Done e
     /\ to_narrow_oop_ptr ASSERT e = Done ref
     /\ is_array_slice e = false /\ is_narrow_oop_ptr e = true).
Proof.
  intros Harr Hc Hp Href.
  split; [|split; [|split]].
  - exists (slice_entry array chunk pow).
    split; [apply new_slice_done; assumption|].
    destruct (slice_entry_fields ASSERT array chunk pow Harr Hc Hp) as (E1 & E2 & E3 & E4).
    auto.
  - destruct (new_tagged_done ASSERT ref OopTag Href) as (Hn & Hd & Hch);
      [unfold OopTag; lia|].
    exists (Entry (ref + OopTag)). unfold new_oop, to_oop, is_array_slice, is_oop_ptr; simpl.
    rewrite Hch. repeat split; trivial.
    destruct Href. unfold OopTag, NarrowOopTag. change 1 with (Z.ones 1).
    rewrite Z.land_ones by lia. apply Z.eqb_eq. Z.div_mod_to_equations; lia.
  - destruct (new_tagged_done ASSERT ref OopTag Href) as (Hn & Hd & Hch);
      [unfold OopTag; lia|].
    exists (Entry (ref + OopTag)). unfold new_oop_ptr, to_oop_ptr, is_array_slice, is_oop_ptr; simpl.
    rewrite Hch. repeat split; trivial.
    destruct Href. unfold OopTag, NarrowOopTag. change 1 with (Z.ones 1).
    rewrite Z.land_ones by lia. apply Z.eqb_eq. Z.div_mod_to_equations; lia.
  - destruct (new_tagged_done ASSERT ref NarrowOopTag Href) as (Hn & Hd & Hch);
      [unfold NarrowOopTag; lia|].
    exists (Entry (ref + NarrowOopTag)).
    unfold new_narrow_oop_ptr, to_narrow_oop_ptr, is_array_slice, is_narrow_oop_ptr; simpl.
    rewrite Hch. repeat split; trivial.
    destruct Href. unfold NarrowOopTag.
    change (Z.land (ref + 1) 1) with (Z.land (ref + 1) (Z.ones 1)).
    rewrite Z.land_ones by lia. simpl.
    apply negb_true_iff, Z.eqb_neq. Z.div_mod_to_equations; lia.
Qed.

Lemma entry_round_trip_witness :
  (exists e, new_slice true 4096 3 7 = Done e
     /\ to_oop true e = Done 4096
     /\ G1TaskQueueEntry.chunk e = 3
     /\ G1TaskQueueEntry.pow e = 7
     /\ is_array_slice e = true)
  /\ (exists e, new_oop true 8192 = Done e
     /\ to_oop true e = Done 8192
     /\ is_array_slice e = false /\ is_oop_ptr e = true)
  /\ (exists e, new_oop_ptr true 8192 = Done e
     /\ to_oop_ptr true e = Done 8192
     /\ is_array_slice e = false /\ is_oop_ptr e = true)
  /\ (exists e, new_narrow_oop_ptr true 8192 = Done e
     /\ to_narrow_oop_ptr true e = Done 8192
     /\ is_array_slice e = false /\ is_narrow_oop_ptr e = true).
Proof.
  apply (entry_round_trip true 4096 3 7 8192); unfold encodable; try lia.
  - split; [lia | reflexivity].
  - split; [lia | reflexivity].
Defined.

Example new_slice_word :
  new_slice true 4096 3 7 = Done (Entry (4096 + 7 * 2 ^ 49 + 3 * 2 ^ 54)).
Proof. vm_compute. reflexivity. Qed.

(** C8 (as amended).  In a debug build the chunked constructor checks its
    encoding: with a chunk number outside [0 .. 1023] or a power outside
    [0 .. 31] it aborts on a failed assertion, and whenever it returns,
    the stored entry decodes to exactly the three arguments. *)
Theorem new_slice_debug_checked (o chunk pow : Z) :
  (~ (0 <= chunk < 1024 /\ 0 <= pow < 32) ->
     is_fatal (new_slice true o chunk pow) = true)
  /\ (forall e, new_slice true o chunk pow = Done e ->
        to_oop true e = Done o
        /\ G1TaskQueueEntry.chunk e = chunk
        /\ G1TaskQueueEntry.pow e = pow
        /\ is_array_slice e = true).
Proof.
  unfold new_slice, to_oop, G1TaskQueueEntry.chunk, G1TaskQueueEntry.pow, is_array_slice.
  set (enc := Z.lor _ _). clearbody enc.
  pose proof (decode_chunk_range enc) as Hck.
  pose proof (decode_pow_range enc) as Hpw.
  unfold decode; unfold vmassert. cbn [obind].
  destruct (has_tag enc OopTag) eqn:Htag; cbn [obind is_fatal];
    [|split; [reflexivity | discriminate]].
  destruct (Z.eqb_spec (Z.land enc oop_extract_mask) o) as [Ho|Ho]; cbn [obind is_fatal];
    [|split; [reflexivity | discriminate]].
  destruct (Z.eqb_spec (decode_chunk enc) chunk) as [Hc|Hc]; cbn [obind is_fatal];
    [|split; [reflexivity | discriminate]].
  destruct (Z.eqb_spec (decode_pow enc) pow) as [Hp|Hp]; cbn [obind is_fatal];
    [|split; [reflexivity | discriminate]].
  destruct (decode_is_chunked enc) eqn:Hch; cbn [obind is_fatal];
    [|split; [reflexivity | discriminate]].
  split.
  - intros Hout. exfalso. apply Hout. lia.
  - intros e [= <-]; cbn [_val]. rewrite Htag, Ho. cbn [obind]. auto.
Qed.

Lemma new_slice_debug_checked_witness :
  is_fatal (new_slice true 4096 1 32) = true
  /\ (forall e, new_slice true 4096 3 7 = Done e ->
        to_oop true e = Done 4096
        /\ G1TaskQueueEntry.chunk e = 3
        /\ G1TaskQueueEntry.pow e = 7
        /\ is_array_slice e = true).
Proof.
  split.
  - apply (proj1 (new_slice_debug_checked 4096 1 32)). lia.
  - apply (proj2 (new_slice_debug_checked 4096 3 7)).
Defined.

(** C8 (as stated) fails in a product build, where [assert] is compiled
    out: with [pow = 32] the constructor returns, and the entry it stores
    decodes to power 0. *)
Lemma new_slice_product_wraps :
  exists e, new_slice false 4096 1 32 = Done e
    /\ is_fatal (new_slice false 4096 1 32) = false
    /\ G1TaskQueueEntry.chunk e = 1
    /\ G1TaskQueueEntry.pow e = 0
    /\ G1TaskQueueEntry.pow e <> 32.
Proof.
  exists (Entry (4096 + 2 ^ 54)).
  repeat split; vm_compute; congruence.
Qed.

(** ** Slicing of object arrays *)


Lemma int_shl_1 (p : Z) : 0 <= p <= 30 -> int_shl 1 p = 2 ^ p.
Proof.
  intros Hp. unfold int_shl.
  rewrite Z.shiftl_mul_pow2, Z.mul_1_l by lia.
  apply to_int_small. unfold is_int.
  assert (0 < 2 ^ p) by (apply Z.pow_pos_nonneg; lia).
  assert (2 ^ p <= 2 ^ 30) by (apply Z.pow_le_mono_r; lia).
  lia.
Qed.

Lemma int_mul_exact (a b : Z) : is_int (a * b) -> int_mul a b = a * b.
Proof. apply to_int_small. Qed.

Lemma int_sub_exact (a b : Z) : is_int (a - b) -> int_sub a b = a - b.
Proof. apply to_int_small. Qed.

Lemma int_add_exact (a b : Z) : is_int (a + b) -> int_add a b = a + b.
Proof. apply to_int_small. Qed.

Lemma pow2_pos (p : Z) : 0 <= p -> 0 < 2 ^ p.
Proof. intros. apply Z.pow_pos_nonneg; lia. Qed.

Lemma pow2_half (p : Z) : 1 <= p -> 2 ^ p = 2 * 2 ^ (p - 1).
Proof.
  intros Hp. replace p with (Z.succ (p - 1)) at 1 by lia.
  apply Z.pow_succ_r. lia.
Qed.

Lemma pow2_ge_1_iff (p s : Z) : 0 <= p -> 0 < s -> 2 ^ p > s -> 1 <= p.
Proof.
  intros Hp Hs H. destruct (Z.eq_dec p 0) as [->|]; [simpl in H|]; lia.
Qed.

Lemma covering_power_spec (len : Z) :
  1 <= len < 2 ^ 31 ->
  0 <= covering_power len <= 31
  /\ len <= 2 ^ covering_power len
  /\ (covering_power len = 31 <-> 2 ^ 30 < len)
  /\ (1 <= covering_power len -> 2 ^ (covering_power len - 1) < len).
Proof.
  intros Hlen. unfold covering_power, log2i_graceful.
  rewrite (proj2 (Z.eqb_neq len 0)) by lia.
  rewrite (Z.mod_small len) by lia.
  pose proof (Z.log2_spec len ltac:(lia)) as [Hlo Hhi].
  pose proof (Z.log2_nonneg len) as Hnn.
  assert (Hb : Z.log2 len <= 30).
  { assert (Z.log2 len < 31) by (apply Z.log2_lt_pow2; lia). lia. }
  rewrite int_shl_1 by lia.
  rewrite Z.pow_succ_r in Hhi by lia.
  assert (Hmono : Z.log2 len <= 29 -> 2 * 2 ^ Z.log2 len <= 2 ^ 30).
  { intros. rewrite <- Z.pow_succ_r by lia. apply Z.pow_le_mono_r; lia. }
  destruct (Z.eqb_spec len (2 ^ Z.log2 len)) as [Heq|Hne]; cbn [negb].
  - repeat split; try lia.
    + intros Hlt. assert (Z.log2 len <= 29 \/ Z.log2 len = 30) as [?|E] by lia; [lia|].
      rewrite E in Heq. lia.
    + intros H1. rewrite (pow2_half (Z.log2 len)) in Heq by lia.
      pose proof (pow2_pos (Z.log2 len - 1) ltac:(lia)). lia.
  - rewrite int_add_exact by (unfold is_int; lia).
    replace (Z.log2 len + 1 - 1) with (Z.log2 len) by lia.
    replace (2 ^ (Z.log2 len + 1)) with (2 * 2 ^ Z.log2 len)
      by (rewrite Z.add_1_r, Z.pow_succ_r; lia).
    repeat split; try lia.
    all: intros E;
      assert (Z.log2 len <= 29 \/ Z.log2 len = 30) as [?|E'] by lia;
      [lia | rewrite E' in *; lia].
Qed.

(** *** Counting covers *)

Lemma cover_count_app (i : Z) (rs ss : list (Z * Z)) :
  cover_count i (rs ++ ss) = (cover_count i rs + cover_count i ss)%nat.
Proof.
  induction rs as [|r rs IH]; cbn [cover_count app]; [reflexivity|].
  rewrite IH. lia.
Qed.

Lemma cover_count_cons (i : Z) (r : Z * Z) (rs : list (Z * Z)) :
  cover_count i (r :: rs) = (cnt i r + cover_count i rs)%nat.
Proof. reflexivity. Qed.

Lemma cover_count_rev (i : Z) (rs : list (Z * Z)) :
  cover_count i (rev rs) = cover_count i rs.
Proof.
  induction rs as [|r rs IH]; [reflexivity|].
  cbn [rev]. rewrite cover_count_app, IH. cbn [cover_count]. lia.
Qed.

Lemma cnt_empty (i a b : Z) : b <= a -> cnt i (a, b) = 0%nat.
Proof.
  intros H. unfold cnt, in_range; cbn [fst snd].
  destruct (Z.leb_spec a i), (Z.ltb_spec i b); cbn; trivial; lia.
Qed.

(** Two adjacent ranges cover what their union covers. *)
Lemma cnt_split (i a b c : Z) :
  a <= b <= c -> Nat.add (cnt i (a, b)) (cnt i (b, c)) = cnt i (a, c).
Proof.
  intros H. unfold cnt, in_range; cbn [fst snd].
  destruct (Z.leb_spec a i), (Z.ltb_spec i b), (Z.leb_spec b i), (Z.ltb_spec i c);
    cbn; trivial; lia.
Qed.

Lemma cnt_interval (i a b : Z) :
  cnt i (a, b) = if (a <=? i) && (i <? b) then 1%nat else 0%nat.
Proof. reflexivity. Qed.

(** *** Effect of several pushes *)

Lemma push_all_fields (new : list entry) (t : G1CMTask) :
  task_queue (push_all t new) = rev new ++ task_queue t
  /\ pushed (push_all t new) = pushed t ++ new
  /\ scanned (push_all t new) = scanned t
  /\ started (push_all t new) = started t.
Proof.
  revert t. induction new as [|e new IH]; intros t; cbn [push_all fold_left].
  - cbn [rev app]. now rewrite app_nil_r.
  - destruct (IH (push t e)) as (H1 & H2 & H3 & H4). unfold push_all in *.
    rewrite H1, H2, H3, H4. cbn [push task_queue pushed scanned started rev].
    rewrite <- !app_assoc. cbn [app]. auto.
Qed.

Lemma queue_weight_app (q r : list entry) :
  queue_weight (q ++ r) = queue_weight q + queue_weight r.
Proof.
  induction q as [|e q IH]; cbn [queue_weight app]; [reflexivity|].
  rewrite IH. lia.
Qed.

Lemma queue_weight_rev (q : list entry) : queue_weight (rev q) = queue_weight q.
Proof.
  induction q as [|e q IH]; [reflexivity|].
  cbn [rev]. rewrite queue_weight_app, IH. cbn [queue_weight]. lia.
Qed.

Lemma queue_weight_nonneg (q : list entry) : 0 <= queue_weight q.
Proof.
  induction q as [|e q IH]; cbn [queue_weight]; [lia|].
  pose proof (decode_pow_range (_val e)).
  pose proof (pow2_pos (pow e) ltac:(unfold pow; lia)). lia.
Qed.

(** *** The two splitting loops *)

Lemma good_entry_weaken (array len P Q : Z) (e : entry) :
  P <= Q -> good_entry array len P e -> good_entry array len Q e.
Proof.
  intros HPQ (c & p & -> & Hc & Hp & Hin). exists c, p. repeat split; trivial; lia.
Qed.

Section SlicingFacts.
Variable ASSERT : bool.
Variable ObjArrayMarkingStride : Z.
Variable is_objArray : Z -> bool.
Variable should_be_sliced : Z -> bool.
Variable objArray_length : Z -> Z.
Variable scan_words : Z -> Z -> Z -> Z.
Variable array : Z.
Variable len : Z.

Hypothesis array_encodable : encodable array.
Hypothesis array_is_objArray : is_objArray array = true.
Hypothesis array_should_be_sliced : should_be_sliced array = true.
Hypothesis array_length : objArray_length array = len.
Hypothesis len_range : 1 <= len < 2 ^ 31.
Hypothesis stride_range : 0 < ObjArrayMarkingStride < 2 ^ 31.

Lemma keep_splitting_spec (c p : Z) :
  1 <= c < 1024 -> 0 <= p <= 30 ->
  keep_splitting ObjArrayMarkingStride c p = (2 ^ p >? ObjArrayMarkingStride) && (2 * c <? 1024).
Proof.
  intros Hc Hp. unfold keep_splitting.
  rewrite int_shl_1 by lia.
  rewrite (to_int_small ObjArrayMarkingStride) by (unfold is_int; lia).
  rewrite int_mul_exact by (unfold is_int; lia).
  rewrite chunk_size_eq. now rewrite (Z.mul_comm c 2).
Qed.

Lemma keep_splitting_true (c p : Z) :
  1 <= c < 1024 -> 0 <= p <= 30 ->
  keep_splitting ObjArrayMarkingStride c p = true ->
  1 <= p /\ 2 * c < 1024 /\ ObjArrayMarkingStride < 2 ^ p.
Proof.
  intros Hc Hp. rewrite keep_splitting_spec by assumption.
  intros [H1 H2]%andb_true_iff.
  apply Z.gtb_lt in H1. apply Z.ltb_lt in H2.
  split; [|lia]. apply (pow2_ge_1_iff p ObjArrayMarkingStride); lia.
Qed.

(** Splitting a chunk in two halves, on index counts. *)
Lemma cnt_halves (i c p : Z) :
  1 <= p ->
  Nat.add (cnt i ((2 * c - 1 - 1) * 2 ^ (p - 1), (2 * c - 1) * 2 ^ (p - 1)))
          (cnt i ((2 * c - 1) * 2 ^ (p - 1), 2 * c * 2 ^ (p - 1)))
  = cnt i ((c - 1) * 2 ^ p, c * 2 ^ p).
Proof.
  intros Hp. rewrite (pow2_half p) by lia.
  pose proof (pow2_pos (p - 1) ltac:(lia)) as Hx.
  set (x := 2 ^ (p - 1)) in *.
  replace ((c - 1) * (2 * x)) with ((2 * c - 1 - 1) * x) by ring.
  replace (c * (2 * x)) with (2 * c * x) by ring.
  apply cnt_split. nia.
Qed.

Lemma slice_split_loop_spec (fuel : nat) :
  forall (c p : Z) (t : G1CMTask),
    1 <= c < 1024 -> 0 <= p <= 30 -> c * 2 ^ p <= len -> p < Z.of_nat fuel ->
    exists c' p' new,
      slice_split_loop ASSERT ObjArrayMarkingStride fuel array c p t = Done (c', p', push_all t new)
      /\ 1 <= c' < 1024 /\ 0 <= p' <= p
      /\ c' * 2 ^ p' = c * 2 ^ p
      /\ keep_splitting ObjArrayMarkingStride c' p' = false
      /\ Forall (good_entry array len (p - 1)) new
      /\ (forall i, Nat.add (cover_count i (map chunk_range new))
                             (cnt i ((c' - 1) * 2 ^ p', c' * 2 ^ p'))
                    = cnt i ((c - 1) * 2 ^ p, c * 2 ^ p))
      /\ queue_weight new + 2 ^ p' = 2 ^ p.
Proof.
  induction fuel as [|fuel IH]; intros c p t Hc Hp Hin Hfuel; [lia|].
  cbn [slice_split_loop].
  destruct (keep_splitting ObjArrayMarkingStride c p) eqn:Hk.
  - destruct (keep_splitting_true c p Hc Hp Hk) as (Hp1 & Hc2 & Hs).
    rewrite (int_sub_exact p 1) by (unfold is_int; lia).
    rewrite (int_mul_exact c 2) by (unfold is_int; lia).
    rewrite (int_sub_exact (c * 2) 1) by (unfold is_int; lia).
    rewrite new_slice_done by (trivial; lia). cbn [obind].
    pose proof (pow2_half p Hp1) as Hhalf.
    pose proof (pow2_pos (p - 1) ltac:(lia)) as Hx.
    destruct (IH (c * 2) (p - 1) (push t (slice_entry array (c * 2 - 1) (p - 1))))
      as (c' & p' & new & Hrun & Hc' & Hp' & Hend & Hstop & Hgood & Hcov & Hw);
      [lia | lia | rewrite Hhalf in Hin; lia | lia |].
    exists c', p', (slice_entry array (c * 2 - 1) (p - 1) :: new).
    split; [exact Hrun|].
    split; [lia|]. split; [lia|].
    split; [rewrite Hend, Hhalf; ring|].
    split; [exact Hstop|].
    destruct (slice_entry_fields ASSERT array (c * 2 - 1) (p - 1) array_encodable)
      as (Ec & Ep & _); try lia.
    split; [|split].
    + constructor.
      * exists (c * 2 - 1), (p - 1). rewrite Hhalf in Hin.
        repeat split; try lia; nia.
      * eapply Forall_impl; [exact Hgood|].
        intros e. apply good_entry_weaken. lia.
    + intros i. cbn [map cover_count]. fold (cnt i (chunk_range (slice_entry array (c * 2 - 1) (p - 1)))).
      unfold chunk_range at 1. rewrite Ec, Ep.
      rewrite <- Nat.add_assoc, Hcov.
      replace (c * 2) with (2 * c) by lia.
      apply cnt_halves. lia.
    + cbn [queue_weight]. rewrite Ep. lia.
  - exists c, p, []. cbn [push_all fold_left map cover_count queue_weight].
    repeat split; trivial; lia.
Qed.

Lemma obj_split_loop_spec (fuel : nat) :
  forall (c p last : Z) (t : G1CMTask),
    1 <= c < 1024 -> 0 <= p <= 30 -> c * 2 ^ p <= 2 ^ 31 ->
    last = (c - 1) * 2 ^ p -> last < len <= c * 2 ^ p -> p < Z.of_nat fuel ->
    exists c' p' last' new,
      obj_split_loop ASSERT ObjArrayMarkingStride fuel array len c p last t
        = Done (c', p', last', push_all t new)
      /\ 1 <= c' < 1024 /\ 0 <= p' <= p
      /\ last' = (c' - 1) * 2 ^ p'
      /\ last <= last' < len /\ len <= c' * 2 ^ p'
      /\ keep_splitting ObjArrayMarkingStride c' p' = false
      /\ Forall (good_entry array len (p - 1)) new
      /\ (forall i, cover_count i (map chunk_range new) = cnt i (last, last'))
      /\ queue_weight new = last' - last.
Proof.
  induction fuel as [|fuel IH]; intros c p last t Hc Hp Hcap Hlast Hlen Hfuel; [lia|].
  cbn [obj_split_loop].
  destruct (keep_splitting ObjArrayMarkingStride c p) eqn:Hk.
  - destruct (keep_splitting_true c p Hc Hp Hk) as (Hp1 & Hc2 & Hs).
    pose proof (pow2_half p Hp1) as Hhalf.
    pose proof (pow2_pos (p - 1) ltac:(lia)) as Hx.
    rewrite Hhalf in Hcap, Hlast, Hlen.
    rewrite (int_sub_exact p 1) by (unfold is_int; lia).
    rewrite (int_mul_exact c 2) by (unfold is_int; lia).
    rewrite (int_sub_exact (c * 2) 1) by (unfold is_int; lia).
    rewrite (int_shl_1 (p - 1)) by lia.
    set (x := 2 ^ (p - 1)) in *.
    rewrite (int_mul_exact (c * 2 - 1) x) by (unfold is_int; nia).
    destruct (Z.ltb_spec ((c * 2 - 1) * x) len) as [Hlt|Hge].
    + rewrite new_slice_done by (trivial; lia). cbn [obind].
      destruct (IH (c * 2) (p - 1) ((c * 2 - 1) * x)
                   (push t (slice_entry array (c * 2 - 1) (p - 1))))
        as (c' & p' & last' & new & Hrun & Hc' & Hp' & Hl' & Hb' & Hcov' & Hstop
            & Hgood & Hcov & Hw);
        [lia | lia | fold x; lia | reflexivity | fold x; lia | lia |].
      exists c', p', last', (slice_entry array (c * 2 - 1) (p - 1) :: new).
      split; [exact Hrun|].
      destruct (slice_entry_fields ASSERT array (c * 2 - 1) (p - 1) array_encodable)
        as (Ec & Ep & _); try lia.
      repeat split; try lia; trivial.
      * constructor.
        -- exists (c * 2 - 1), (p - 1). fold x. repeat split; lia.
        -- eapply Forall_impl; [exact Hgood|].
           intros e. apply good_entry_weaken. lia.
      * intros i. cbn [map cover_count].
        fold (cnt i (chunk_range (slice_entry array (c * 2 - 1) (p - 1)))).
        unfold chunk_range. rewrite Ec, Ep, Hcov. fold x.
        replace ((c * 2 - 1 - 1) * x) with last by lia.
        apply cnt_split. lia.
      * cbn [queue_weight]. rewrite Ep. fold x. lia.
    + destruct (IH (c * 2 - 1) (p - 1) last t)
        as (c' & p' & last' & new & Hrun & Hc' & Hp' & Hl' & Hb' & Hcov' & Hstop
            & Hgood & Hcov & Hw);
        [lia | lia | fold x; lia | fold x; lia | fold x; lia | lia |].
      exists c', p', last', new.
      split; [exact Hrun|].
      repeat split; try lia; trivial.
      eapply Forall_impl; [exact Hgood|].
      intros e. apply good_entry_weaken. lia.
  - exists c, p, last, []. cbn [push_all fold_left map cover_count queue_weight].
    repeat split; trivial; try lia.
    intros i. symmetry. apply cnt_empty. lia.
Qed.

(** *** [process_slice] *)

Lemma process_slice_spec (c p : Z) (t : G1CMTask) :
  1 <= c < 1024 -> 0 <= p <= 30 -> c * 2 ^ p <= len ->
  exists from new,
    process_slice ASSERT ObjArrayMarkingStride is_objArray objArray_length
                  scan_words array c p t
      = Done (scan_words array from (c * 2 ^ p),
              Task (rev new ++ task_queue t) (pushed t ++ new)
                   (scanned t ++ [(array, from, c * 2 ^ p)]) (started t))
    /\ 0 <= from < c * 2 ^ p
    /\ (c - 1) * 2 ^ p <= from
    /\ Forall (good_entry array len (p - 1)) new
    /\ (forall i, Nat.add (cover_count i (map chunk_range new))
                           (cnt i (from, c * 2 ^ p))
                  = cnt i ((c - 1) * 2 ^ p, c * 2 ^ p))
    /\ queue_weight new < 2 ^ p.
Proof.
  intros Hc Hp Hin.
  destruct (slice_split_loop_spec loop_fuel c p t Hc Hp Hin)
    as (c' & p' & new & Hrun & Hc' & Hp' & Hend & Hstop & Hgood & Hcov & Hw);
    [unfold loop_fuel; lia|].
  pose proof (pow2_pos p' ltac:(lia)) as Hx.
  exists ((c' - 1) * 2 ^ p'), new.
  split.
  - unfold process_slice, vmassert.
    rewrite array_is_objArray, array_length.
    replace (ObjArrayMarkingStride >? 0) with true by (symmetry; apply Z.gtb_lt; lia).
    assert (Hbody :
      (s <- slice_split_loop ASSERT ObjArrayMarkingStride loop_fuel array c p t ;;
       let '(chunk, pow, t0) := s in
       let chunk_size := int_shl 1 pow in
       let from := int_mul (int_sub chunk 1) chunk_size in
       let to := int_mul chunk chunk_size in
       (if ASSERT then
          (b <- Done ((0 <=? from) && (from <? len)) ;;
           (if b then Done () else Fatal "from is sane")) ;;;
          (if ASSERT then
             b <- Done ((0 <? to) && (to <=? len)) ;;
             (if b then Done () else Fatal "to is sane")
           else Done ())
        else Done ()) ;;;
       Done (scan_objArray scan_words t0 array from to))
      = Done (scan_words array ((c' - 1) * 2 ^ p') (c * 2 ^ p),
              Task (rev new ++ task_queue t) (pushed t ++ new)
                   (scanned t ++ [(array, (c' - 1) * 2 ^ p', c * 2 ^ p)]) (started t))).
    { rewrite Hrun. cbn [obind].
      rewrite (int_shl_1 p') by lia.
      rewrite (int_sub_exact c' 1) by (unfold is_int; lia).
      rewrite (int_mul_exact (c' - 1)) by (unfold is_int; nia).
      rewrite (int_mul_exact c') by (unfold is_int; nia).
      rewrite Hend.
      replace (0 <=? (c' - 1) * 2 ^ p') with true by (symmetry; apply Z.leb_le; nia).
      replace ((c' - 1) * 2 ^ p' <? len) with true by (symmetry; apply Z.ltb_lt; nia).
      replace (0 <? c * 2 ^ p) with true by (symmetry; apply Z.ltb_lt; nia).
      replace (c * 2 ^ p <=? len) with true by (symmetry; apply Z.leb_le; lia).
      destruct (push_all_fields new t) as (Q1 & Q2 & Q3 & Q4).
      unfold scan_objArray. rewrite Q1, Q2, Q3, Q4.
      destruct ASSERT; reflexivity. }
    destruct ASSERT; cbn [obind]; exact Hbody.
  - pose proof (Z.pow_le_mono_r 2 p' p ltac:(lia) ltac:(lia)) as Hmono.
    split; [nia|]. split; [lia|]. split; [exact Hgood|]. split.
    + intros i. rewrite <- Hcov, Hend. reflexivity.
    + lia.
Qed.

(** *** [process_obj] *)

Lemma handle_overflow_spec (t : G1CMTask) :
  handle_overflow ASSERT array 1 (covering_power len) 0 t
  = Done (if covering_power len =? 31
          then (2, 30, 2 ^ 30, push t (slice_entry array 1 30))
          else (1, covering_power len, 0, t)).
Proof.
  destruct (covering_power_spec len len_range) as (Hb & _).
  unfold handle_overflow.
  destruct (Z.eqb_spec (covering_power len) 31) as [E|NE].
  - rewrite E. change (31 >=? 31) with true. cbn beta iota.
    change (int_sub 31 1) with 30. change (int_shl 1 30) with (2 ^ 30).
    rewrite new_slice_done by (trivial; lia).
    unfold vmassert. destruct ASSERT; reflexivity.
  - replace (covering_power len >=? 31) with false; [reflexivity|].
    symmetry. rewrite Z.geb_leb. apply Z.leb_gt. lia.
Qed.

Lemma process_obj_unfold (t : G1CMTask) :
  process_obj ASSERT ObjArrayMarkingStride is_objArray should_be_sliced
              objArray_length scan_words array t
  = (s <- handle_overflow ASSERT array 1 (covering_power len) 0
            (scan_objArray_start t array) ;;
     let '(chunk, pow, last_idx, t) := s in
     s <- obj_split_loop ASSERT ObjArrayMarkingStride loop_fuel array len
            chunk pow last_idx t ;;
     let '(chunk, pow, last_idx, t) := s in
     if last_idx <? len then Done (scan_objArray scan_words t array last_idx len)
     else Done (0, t)).
Proof.
  unfold process_obj, vmassert.
  rewrite array_should_be_sliced, array_is_objArray, array_length.
  fold (covering_power len).
  destruct ASSERT; reflexivity.
Qed.

Lemma process_obj_spec (t : G1CMTask) :
  exists last new,
    process_obj ASSERT ObjArrayMarkingStride is_objArray should_be_sliced
                objArray_length scan_words array t
      = Done (scan_words array last len,
              Task (rev new ++ task_queue t) (pushed t ++ new)
                   (scanned t ++ [(array, last, len)]) (started t ++ [array]))
    /\ 0 <= last < len
    /\ Forall (good_entry array len 30) new
    /\ (forall i, cover_count i (map chunk_range new) = cnt i (0, last))
    /\ queue_weight new = last
    /\ (covering_power len = 31 ->
          exists rest, new = slice_entry array 1 30 :: rest
            /\ Forall (good_entry array len 29) rest).
Proof.
  destruct (covering_power_spec len len_range) as (Hb & Hcovers & H31 & Hprev).
  rewrite process_obj_unfold, handle_overflow_spec. cbn [obind].
  set (t0 := scan_objArray_start t array).
  destruct (Z.eqb_spec (covering_power len) 31) as [E|NE].
  - (* the overflow pre-split *)
    assert (Hbig : 2 ^ 30 < len) by (apply H31; exact E).
    destruct (obj_split_loop_spec loop_fuel 2 30 (2 ^ 30)
                (push t0 (slice_entry array 1 30)))
      as (c' & p' & last' & new & Hrun & Hc' & Hp' & Hl' & Hb' & Hcov' & Hstop
          & Hgood & Hcov & Hw);
      [lia | lia | lia | lia | lia | unfold loop_fuel; lia |].
    rewrite Hrun. cbn [obind].
    replace (last' <? len) with true by (symmetry; apply Z.ltb_lt; lia).
    destruct (slice_entry_fields ASSERT array 1 30 array_encodable)
      as (Ec & Ep & _); try lia.
    exists last', (slice_entry array 1 30 :: new).
    destruct (push_all_fields new (push t0 (slice_entry array 1 30)))
      as (Q1 & Q2 & Q3 & Q4).
    split.
    { unfold scan_objArray. rewrite Q1, Q2, Q3, Q4.
      cbn [push t0 scan_objArray_start task_queue pushed scanned started rev].
      rewrite <- !app_assoc. reflexivity. }
    split; [lia|].
    split.
    { constructor.
      - exists 1, 30. repeat split; lia.
      - eapply Forall_impl; [exact Hgood|]. intros e. apply good_entry_weaken. lia. }
    split.
    { intros i. cbn [map cover_count].
      fold (cnt i (chunk_range (slice_entry array 1 30))).
      unfold chunk_range. rewrite Ec, Ep, Hcov.
      replace ((1 - 1) * 2 ^ 30) with 0 by lia.
      replace (1 * 2 ^ 30) with (2 ^ 30) by lia.
      apply cnt_split. lia. }
    split.
    { cbn [queue_weight]. rewrite Ep. lia. }
    intros _. exists new. split; [reflexivity | exact Hgood].
  - assert (Hb30 : covering_power len <= 30) by lia.
    destruct (obj_split_loop_spec loop_fuel 1 (covering_power len) 0 t0)
      as (c' & p' & last' & new & Hrun & Hc' & Hp' & Hl' & Hb' & Hcov' & Hstop
          & Hgood & Hcov & Hw);
      [lia | lia | | lia | lia | unfold loop_fuel; lia |].
    { assert (2 ^ covering_power len <= 2 ^ 30) by (apply Z.pow_le_mono_r; lia). lia. }
    rewrite Hrun. cbn [obind].
    replace (last' <? len) with true by (symmetry; apply Z.ltb_lt; lia).
    exists last', new.
    destruct (push_all_fields new t0) as (Q1 & Q2 & Q3 & Q4).
    split.
    { unfold scan_objArray. rewrite Q1, Q2, Q3, Q4. reflexivity. }
    split; [lia|].
    split.
    { eapply Forall_impl; [exact Hgood|]. intros e. apply good_entry_weaken. lia. }
    split; [exact Hcov|].
    split; [lia|].
    intros E. lia.
Qed.

(** *** Processing queued descriptors *)

Lemma good_entry_fields (P : Z) (e : entry) :
  P <= 30 -> good_entry array len P e ->
  1 <= chunk e < 1024 /\ 0 <= pow e <= P
  /\ 0 <= fst (chunk_range e) < snd (chunk_range e)
  /\ snd (chunk_range e) <= len
  /\ to_oop ASSERT e = Done array
  /\ is_array_slice e = true.
Proof.
  intros HP (c & p & -> & Hc & Hp & Hin).
  destruct (slice_entry_fields ASSERT array c p array_encodable)
    as (Ec & Ep & Eo & Es); try lia.
  unfold chunk_range. rewrite Ec, Ep. cbn [fst snd].
  pose proof (pow2_pos p ltac:(lia)).
  repeat split; trivial; try lia; nia.
Qed.

Lemma advances_refl (t : G1CMTask) :
  Forall (good_entry array len 30) (task_queue t) -> advances array len t t.
Proof.
  intros H. split; [exact H|]. split; [reflexivity|].
  split; [exists []; now rewrite app_nil_r|].
  split; [exists []; now rewrite app_nil_r|]. reflexivity.
Qed.

Lemma advances_trans (t1 t2 t3 : G1CMTask) :
  advances array len t1 t2 -> advances array len t2 t3 -> advances array len t1 t3.
Proof.
  intros (_ & C1 & (n1 & P1 & G1) & (s1 & S1 & F1) & St1)
         (Q2 & C2 & (n2 & P2 & G2) & (s2 & S2 & F2) & St2).
  split; [exact Q2|].
  split; [intros i; now rewrite C2, C1|].
  split; [exists (n1 ++ n2); rewrite P2, P1, <- app_assoc; split;
          [reflexivity | apply Forall_app; auto]|].
  split; [exists (s1 ++ s2); rewrite S2, S1, <- app_assoc; split;
          [reflexivity | apply Forall_app; auto]|].
  congruence.
Qed.

Lemma process_entry_step (t : G1CMTask) (q1 q2 : list entry) (e : entry) :
  task_queue t = q1 ++ e :: q2 ->
  Forall (good_entry array len 30) (task_queue t) ->
  exists t',
    process_entry ASSERT ObjArrayMarkingStride is_objArray objArray_length
                  scan_words e (set_queue t (q1 ++ q2)) = Done t'
    /\ advances array len t t'
    /\ queue_weight (task_queue t') < queue_weight (task_queue t).
Proof.
  intros Hq Hall. rewrite Hq in Hall.
  apply Forall_app in Hall as [Hq1 Hrest].
  apply Forall_cons in Hrest as [He Hq2].
  destruct (good_entry_fields 30 e ltac:(lia) He) as (Hc & Hp & Hr & Hin & Hoop & Hsl).
  unfold chunk_range in Hr, Hin. cbn [fst snd] in Hr, Hin.
  destruct (process_slice_spec (chunk e) (pow e) (set_queue t (q1 ++ q2)) Hc Hp Hin)
    as (from & new & Hrun & Hfrom & Hlo & Hgood & Hcov & Hw).
  unfold process_entry. rewrite Hsl, Hoop. cbn [obind]. rewrite Hrun. cbn [obind snd].
  eexists. split; [reflexivity|].
  cbn [set_queue task_queue pushed scanned started].
  split; [split; [|split; [|split; [|split]]]|].
  - apply Forall_app. split.
    + apply Forall_rev. eapply Forall_impl; [exact Hgood|].
      intros x. apply good_entry_weaken. lia.
    + apply Forall_app. auto.
  - intros i. unfold covered, scanned_ranges.
    cbn [task_queue scanned]. rewrite Hq.
    rewrite !map_app, !cover_count_app, map_rev, cover_count_rev.
    cbn [map cover_count fst snd].
    specialize (Hcov i). fold (cnt i (chunk_range e)).
    change (cnt i ((chunk e - 1) * 2 ^ pow e, chunk e * 2 ^ pow e))
      with (cnt i (chunk_range e)) in Hcov.
    fold (cnt i (from, chunk e * 2 ^ pow e)). lia.
  - exists new. split; [reflexivity|].
    eapply Forall_impl; [exact Hgood|]. intros x. apply good_entry_weaken. lia.
  - eexists. split; [reflexivity|]. constructor; [|constructor].
    unfold sane_scan. cbn [fst snd]. repeat split; lia.
  - reflexivity.
  - rewrite Hq, !queue_weight_app, queue_weight_rev. cbn [queue_weight]. lia.
Qed.

Lemma drain_spec (fuel : nat) :
  forall t : G1CMTask,
    Forall (good_entry array len 30) (task_queue t) ->
    queue_weight (task_queue t) <= Z.of_nat fuel ->
    exists t',
      drain ASSERT ObjArrayMarkingStride is_objArray objArray_length
            scan_words fuel t = Done t'
      /\ task_queue t' = [] /\ advances array len t t'.
Proof.
  induction fuel as [|fuel IH]; intros t Hall Hw.
  - destruct (task_queue t) as [|e q] eqn:Hq.
    + exists t. cbn [drain]. rewrite Hq.
      split; [reflexivity|]. split; [reflexivity|].
      apply advances_refl. rewrite Hq. constructor.
    + exfalso. apply Forall_cons in Hall as [He _].
      destruct (good_entry_fields 30 e ltac:(lia) He) as (_ & Hp & _).
      pose proof (pow2_pos (pow e) ltac:(lia)).
      pose proof (queue_weight_nonneg q).
      cbn [queue_weight] in Hw. lia.
  - destruct (task_queue t) as [|e q] eqn:Hq.
    + exists t. cbn [drain]. rewrite Hq.
      split; [reflexivity|]. split; [reflexivity|].
      apply advances_refl. rewrite Hq. constructor.
    + destruct (process_entry_step t [] q e Hq) as (t1 & Hrun & Hadv & Hlt);
        [now rewrite Hq|].
      cbn [app] in Hrun.
      destruct (IH t1) as (t' & Hrun' & Hempty & Hadv').
      * apply Hadv.
      * rewrite Hq in Hlt. lia.
      * exists t'. cbn [drain]. rewrite Hq, Hrun. cbn [obind].
        split; [exact Hrun'|]. split; [exact Hempty|].
        eapply advances_trans; eassumption.
Qed.

Lemma runs_advances (t t' : G1CMTask) :
  runs ASSERT ObjArrayMarkingStride is_objArray objArray_length scan_words t t' ->
  Forall (good_entry array len 30) (task_queue t) ->
  advances array len t t'.
Proof.
  induction 1 as [t|t t1 t2 q1 q2 e Hq Hstep Hruns IH]; intros Hall.
  - now apply advances_refl.
  - destruct (process_entry_step t q1 q2 e Hq Hall) as (t1' & Hrun & Hadv & _).
    rewrite Hstep in Hrun. injection Hrun as <-.
    eapply advances_trans; [exact Hadv|]. apply IH, Hadv.
Qed.

(** *** The state [process_obj] leaves behind *)

Lemma process_obj_start :
  exists r t0 last new,
    process_obj ASSERT ObjArrayMarkingStride is_objArray should_be_sliced
                objArray_length scan_words array empty_task = Done (r, t0)
    /\ t0 = Task (rev new) new [(array, last, len)] [array]
    /\ 0 <= last < len
    /\ Forall (good_entry array len 30) new
    /\ (forall i, covered i t0 = cnt i (0, len))
    /\ queue_weight (task_queue t0) < len
    /\ (covering_power len = 31 ->
          exists rest, new = slice_entry array 1 30 :: rest
            /\ Forall (good_entry array len 29) rest).
Proof.
  destruct (process_obj_spec empty_task)
    as (last & new & Hrun & Hlast & Hgood & Hcov & Hw & Hov).
  cbn [empty_task task_queue pushed scanned started app] in Hrun.
  rewrite app_nil_r in Hrun.
  eexists _, _, last, new. split; [exact Hrun|].
  split; [reflexivity|]. split; [exact Hlast|]. split; [exact Hgood|].
  split; [|split; [|exact Hov]].
  - intros i. unfold covered, scanned_ranges.
    cbn [task_queue scanned map cover_count fst snd].
    rewrite map_rev, cover_count_rev, Hcov.
    fold (cnt i (last, len)). rewrite Nat.add_0_r, Nat.add_comm.
    apply cnt_split. lia.
  - cbn [task_queue]. rewrite queue_weight_rev. lia.
Qed.

(** C1.  Marking an object array of length [len] (at least 1, which an
    array above the slicing threshold is) with a positive stride: the
    call of [process_obj] followed by the processing of every queued
    descriptor, each by [process_slice], terminates with an empty
    queue, and the ranges passed to [scan_objArray] - the irregular
    tail and one range per descriptor - are ranges of this array that
    partition [0, len): every index in [0, len) lies in exactly one
    of them and every other index in none.  This holds for the worker
    that drains its queue from the top and for every other order in
    which the queued descriptors are taken. *)
Theorem slicing_partitions_array :
  (exists t,
      mark_objArray ASSERT ObjArrayMarkingStride is_objArray should_be_sliced
                    objArray_length scan_words (Z.to_nat len) array = Done t
      /\ task_queue t = []
      /\ Forall (fun s => fst (fst s) = array) (scanned t)
      /\ forall i, cover_count i (scanned_ranges t)
                   = if (0 <=? i) && (i <? len) then 1%nat else 0%nat)
  /\ (forall r t0 t',
        process_obj ASSERT ObjArrayMarkingStride is_objArray should_be_sliced
                    objArray_length scan_words array empty_task = Done (r, t0) ->
        runs ASSERT ObjArrayMarkingStride is_objArray objArray_length scan_words t0 t' ->
        task_queue t' = [] ->
        Forall (fun s => fst (fst s) = array) (scanned t')
        /\ forall i, cover_count i (scanned_ranges t')
                     = if (0 <=? i) && (i <? len) then 1%nat else 0%nat).
Proof.
  destruct process_obj_start
    as (r & t0 & last & new & Hrun & Ht0 & Hlast & Hgood & Hcov & Hw & _).
  assert (Hq0 : Forall (good_entry array len 30) (task_queue t0)).
  { rewrite Ht0. cbn [task_queue]. now apply Forall_rev. }
  assert (Hfinal : forall t', advances array len t0 t' -> task_queue t' = [] ->
            Forall (fun s => fst (fst s) = array) (scanned t')
            /\ forall i, cover_count i (scanned_ranges t')
                         = if (0 <=? i) && (i <? len) then 1%nat else 0%nat).
  { intros t' (_ & Hc & _ & (ns & Hs & Hsane) & _) Hempty. split.
    - rewrite Hs, Ht0. cbn [scanned]. apply Forall_app. split.
      + constructor; [reflexivity | constructor].
      + eapply Forall_impl; [exact Hsane|]. intros s Hs'. apply Hs'.
    - intros i. specialize (Hc i). rewrite Hcov in Hc.
      unfold covered in Hc. rewrite Hempty in Hc.
      cbn [map cover_count] in Hc. rewrite Nat.add_0_r in Hc.
      rewrite Hc. apply cnt_interval. }
  split.
  - destruct (drain_spec (Z.to_nat len) t0 Hq0 ltac:(lia))
      as (t' & Hdrain & Hempty & Hadv).
    exists t'. unfold mark_objArray. rewrite Hrun. cbn [obind snd].
    split; [exact Hdrain|]. split; [exact Hempty|]. now apply Hfinal.
  - intros r' t0' t' Hrun' Hruns Hempty.
    rewrite Hrun in Hrun'. injection Hrun' as _ <-.
    apply Hfinal; [|exact Hempty].
    eapply runs_advances; eassumption.
Qed.

(** C9.  Only full chunks are queued.  In every state reached from the
    call of [process_obj] by processing queued descriptors in any
    order: every descriptor ever pushed, by [process_obj] or by
    [process_slice], denotes an interval
    [(chunk-1)*2^pow, chunk*2^pow) within [0, len); every range scanned
    satisfies [0 <= from < len] and [0 < to <= len]; and processing any
    descriptor still queued returns, so that in a debug build the two
    range assertions of [process_slice] hold for every descriptor
    taken from the queue.  [process_obj] itself returns.  In a product
    build the result of [process_slice] does not depend on the array
    lengths at all. *)
Theorem only_full_chunks_queued :
  (exists r t0,
      process_obj ASSERT ObjArrayMarkingStride is_objArray should_be_sliced
                  objArray_length scan_words array empty_task = Done (r, t0))
  /\ (forall r t0 t',
        process_obj ASSERT ObjArrayMarkingStride is_objArray should_be_sliced
                    objArray_length scan_words array empty_task = Done (r, t0) ->
        runs ASSERT ObjArrayMarkingStride is_objArray objArray_length scan_words t0 t' ->
        Forall (full_chunk ASSERT array len) (pushed t')
        /\ Forall (fun s => fst (fst s) = array
                            /\ 0 <= snd (fst s) < len /\ 0 < snd s <= len)
                  (scanned t')
        /\ forall q1 e q2, task_queue t' = q1 ++ e :: q2 ->
             exists t'',
               process_entry ASSERT ObjArrayMarkingStride is_objArray
                             objArray_length scan_words e
                             (set_queue t' (q1 ++ q2)) = Done t'')
  /\ (forall (lengths lengths' : Z -> Z) (obj c p : Z) (t : G1CMTask),
        process_slice false ObjArrayMarkingStride is_objArray lengths
                      scan_words obj c p t
        = process_slice false ObjArrayMarkingStride is_objArray lengths'
                        scan_words obj c p t).
Proof.
  destruct process_obj_start
    as (r & t0 & last & new & Hrun & Ht0 & Hlast & Hgood & Hcov & Hw & _).
  assert (Hq0 : Forall (good_entry array len 30) (task_queue t0)).
  { rewrite Ht0. cbn [task_queue]. now apply Forall_rev. }
  assert (Hfull : forall e, good_entry array len 30 e -> full_chunk ASSERT array len e).
  { intros e He. apply (good_entry_fields 30 e); [lia | exact He]. }
  split; [eauto|]. split; [|reflexivity].
  intros r' t0' t' Hrun' Hruns.
  rewrite Hrun in Hrun'. injection Hrun' as _ <-.
  pose proof (runs_advances t0 t' Hruns Hq0)
    as (Hq & _ & (new' & Hp & Hnew') & (ns & Hs & Hsane) & _).
  split; [|split].
  - rewrite Hp, Ht0. cbn [pushed]. apply Forall_app. split.
    + eapply Forall_impl; [exact Hgood | exact Hfull].
    + eapply Forall_impl; [exact Hnew'|].
      intros e He. apply Hfull. eapply good_entry_weaken; [|exact He]. lia.
  - rewrite Hs, Ht0. cbn [scanned]. apply Forall_app. split.
    + constructor; [cbn [fst snd]; lia | constructor].
    + eapply Forall_impl; [exact Hsane|].
      intros s (H1 & H2 & H3 & _). auto.
  - intros q1 e q2 Hq'.
    destruct (process_entry_step t' q1 q2 e Hq' Hq) as (t'' & Hstep & _).
    eauto.
Qed.

End SlicingFacts.

(** Instances: an array of 1000 elements at address 4096 sliced with
    stride 16, and an array of [2^30 + 1] elements. *)

Lemma slicing_partitions_array_witness :
  exists t,
    mark_objArray true 16 (fun _ => true) (fun _ => true) (fun _ => 1000)
                  (fun _ from to => to - from) (Z.to_nat 1000) 4096 = Done t
    /\ task_queue t = []
    /\ Forall (fun s => fst (fst s) = 4096) (scanned t)
    /\ forall i, cover_count i (scanned_ranges t)
                 = if (0 <=? i) && (i <? 1000) then 1%nat else 0%nat.
Proof.
  refine (proj1 (slicing_partitions_array true 16 (fun _ => true) (fun _ => true)
                   (fun _ => 1000) (fun _ from to => to - from) 4096 1000
                   _ _ _ _ _ _)).
  - split; [lia | reflexivity].
  - reflexivity.
  - reflexivity.
  - reflexivity.
  - lia.
  - lia.
Defined.

Lemma only_full_chunks_queued_witness :
  exists r t0,
    process_obj true 16 (fun _ => true) (fun _ => true) (fun _ => 1000)
                (fun _ from to => to - from) 4096 empty_task = Done (r, t0).
Proof.
  refine (proj1 (only_full_chunks_queued true 16 (fun _ => true) (fun _ => true)
                   (fun _ => 1000) (fun _ from to => to - from) 4096 1000
                   _ _ _ _ _ _)).
  - split; [lia | reflexivity].
  - reflexivity.
  - reflexivity.
  - reflexivity.
  - lia.
  - lia.
Defined.


(** The first end-to-end scenario of section 8: an array of 1000
    elements and a stride of 16.  [process_obj] scans the irregular tail
    [992, 1000) itself; 63 ranges are scanned in all, 1000 elements in
    total. *)
Example slicing_1000_by_16 :
  match mark_objArray true 16 (fun _ => true) (fun _ => true) (fun _ => 1000)
                      (fun _ from to => to - from) 1000%nat 4096 with
  | Done t =>
      hd_error (scanned t) = Some (4096, 992, 1000)
      /\ fold_right (fun s acc => snd s - snd (fst s) + acc) 0 (scanned t) = 1000
      /\ length (scanned t) = 63%nat
      /\ map (fun e => (chunk e, pow e)) (firstn 6 (pushed t))
         = [(1, 9); (3, 8); (7, 7); (15, 6); (31, 5); (61, 4)]
  | _ => False
  end.
Proof. vm_compute. repeat split; reflexivity. Qed.

(** An array of [2^30 + 1] elements takes the overflow path. *)
Example slicing_overflow_path :
  match process_obj true 100000 (fun _ => true) (fun _ => true)
                    (fun _ => 2 ^ 30 + 1) (fun _ from to => to - from)
                    4096 empty_task with
  | Done (n, t) =>
      n = 1
      /\ scanned t = [(4096, 2 ^ 30, 2 ^ 30 + 1)]
      /\ map (fun e => (chunk e, pow e)) (pushed t) = [(1, 30)]
  | _ => False
  end.
Proof. vm_compute. repeat split; reflexivity. Qed.

(** ** Pointer adjustment *)

Section AdjustPointerFacts.
Context {T : Type} `{CompressedOops.HeapOop T}.
Variable markWord : Type.
Variable is_marked : markWord -> bool.
Variable SlidingForwarding : Type.
Variable is_in : Z -> bool.
Variable is_object_aligned : Z -> bool.
Variable ASSERT : bool.
Variable forwardee : SlidingForwarding -> MarkSweep.memory T markWord -> Z -> Z.

(** C5.  [adjust_pointer] on a slot [p] that holds [v]:
    a null [v] leaves memory as it is;
    a non-null [v] whose referent's header is not marked leaves memory
    as it is;
    a non-null [v] whose referent's header is marked overwrites the
    slot, and only the slot, with (the encoding of) the forwardee of the
    referent;
    and whenever [adjust_pointer] returns, every header and every other
    slot is as before.  In a debug build the call returns under the
    conditions its assertions state. *)
Theorem adjust_pointer_spec (forwarding : SlidingForwarding) (p : Z)
    (m : MarkSweep.memory T markWord) (v : T) :
  MarkSweep.slots m !! p = Some v ->
  (CompressedOops.is_null v = true ->
   MarkSweep.adjust_pointer markWord is_marked SlidingForwarding is_in
     is_object_aligned ASSERT forwardee forwarding p m = Done m)
  /\ (forall w,
        CompressedOops.is_null v = false ->
        MarkSweep.marks m !! CompressedOops.decode_not_null v = Some w ->
        is_marked w = false ->
        (ASSERT = true -> is_in (CompressedOops.decode_not_null v) = true) ->
        MarkSweep.adjust_pointer markWord is_marked SlidingForwarding is_in
          is_object_aligned ASSERT forwardee forwarding p m = Done m)
  /\ (forall w,
        CompressedOops.is_null v = false ->
        MarkSweep.marks m !! CompressedOops.decode_not_null v = Some w ->
        is_marked w = true ->
        (ASSERT = true ->
           is_in (CompressedOops.decode_not_null v) = true
           /\ forwardee forwarding m (CompressedOops.decode_not_null v) <> 0
           /\ is_object_aligned
                (forwardee forwarding m (CompressedOops.decode_not_null v)) = true) ->
        MarkSweep.adjust_pointer markWord is_marked SlidingForwarding is_in
          is_object_aligned ASSERT forwardee forwarding p m
        = Done (MarkSweep.Memory
                  (<[p := CompressedOops.encode_not_null
                            (forwardee forwarding m (CompressedOops.decode_not_null v))]>
                     (MarkSweep.slots m))
                  (MarkSweep.marks m)))
  /\ (forall m',
        MarkSweep.adjust_pointer markWord is_marked SlidingForwarding is_in
          is_object_aligned ASSERT forwardee forwarding p m = Done m' ->
        MarkSweep.marks m' = MarkSweep.marks m
        /\ forall q, q <> p -> MarkSweep.slots m' !! q = MarkSweep.slots m !! q).
Proof.
  intros Hslot.
  unfold MarkSweep.adjust_pointer, MarkSweep.oop_load, MarkSweep.mark.
  rewrite Hslot. cbn [obind].
  split; [|split; [|split]].
  - intros ->. reflexivity.
  - intros w -> Hw Hm Hin. cbn [negb]. rewrite Hw.
    unfold vmassert. destruct ASSERT; cbn [obind].
    + rewrite Hin by reflexivity. cbn [obind]. now rewrite Hm.
    + now rewrite Hm.
  - intros w -> Hw Hm Hok. cbn [negb]. rewrite Hw.
    unfold vmassert, MarkSweep.oop_store. destruct ASSERT; cbn [obind].
    + destruct (Hok eq_refl) as (Hin & Hnz & Hal).
      rewrite Hin. cbn [obind]. rewrite Hm, Hal.
      apply Z.eqb_neq in Hnz. rewrite Hnz. reflexivity.
    + now rewrite Hm.
  - intros m'. destruct (CompressedOops.is_null v); cbn [negb].
    + intros [= <-]. auto.
    + unfold vmassert, MarkSweep.oop_store.
      destruct (MarkSweep.marks m !! CompressedOops.decode_not_null v) as [w|];
        destruct ASSERT; cbn [obind];
        repeat match goal with
               | |- context [obind (if ?b then _ else _) _] => destruct b; cbn [obind]
               | |- context [if ?b then _ else _] => destruct b; cbn [obind]
               end;
        try discriminate.
      all: intros [= <-]; cbn [MarkSweep.marks MarkSweep.slots];
        (split; [reflexivity|]; intros q Hq;
         try (rewrite lookup_insert_ne by congruence); reflexivity).
Qed.
End AdjustPointerFacts.

Lemma adjust_pointer_spec_witness :
  MarkSweep.adjust_pointer (T := Z) (H := CompressedOops.oop_HeapOop)
    Z (fun w => Z.land w 3 =? 3) unit (fun _ => true)
    (fun o => o mod 8 =? 0) true (fun _ _ obj => obj - 64) tt 100
    (MarkSweep.Memory ({[100 := 4096]} : gmap Z Z) ({[4096 := 3]} : gmap Z Z))
  = Done (MarkSweep.Memory (<[100 := 4032]> ({[100 := 4096]} : gmap Z Z))
                           ({[4096 := 3]} : gmap Z Z)).
Proof.
  refine (proj1 (proj2 (proj2
    (adjust_pointer_spec (T := Z) (H := CompressedOops.oop_HeapOop)
       Z (fun w => Z.land w 3 =? 3) unit (fun _ => true)
       (fun o => o mod 8 =? 0) true (fun _ _ obj => obj - 64) tt 100
       (MarkSweep.Memory ({[100 := 4096]} : gmap Z Z) ({[4096 := 3]} : gmap Z Z))
       4096 _))) 3 _ _ _ _).
  - vm_compute. reflexivity.
  - reflexivity.
  - vm_compute. reflexivity.
  - reflexivity.
  - intros _. repeat split. vm_compute. discriminate.
Defined.

(** ** The driver of a full collection *)

Lemma Done_inj {A : Type} (a b : A) : Done a = Done b -> a = b.
Proof. now intros [= ->]. Qed.

Lemma obind_unit_done {B : Type} (m : outcome unit) (k : unit -> outcome B) (r : B) :
  obind m k = Done r -> k tt = Done r.
Proof. destruct m as [[]| |]; cbn [obind]; [trivial | discriminate | discriminate]. Qed.

Section CollectionFacts.
Context {H R : Type}.
Variable ASSERT : bool.
Variable gch : collaborators H R.

(** The setters touch one field each. *)
Lemma trace_log (ev : event R) (s : state H R) : trace (log ev s) = trace s ++ [ev].
Proof. reflexivity. Qed.

Lemma heap_log (ev : event R) (s : state H R) : heap (log ev s) = heap s.
Proof. reflexivity. Qed.

Lemma prev_log (ev : event R) (s : state H R) :
  prev_used_regions (log ev s) = prev_used_regions s.
Proof. reflexivity. Qed.

Lemma trace_set_heap (h : H) (s : state H R) : trace (set_heap h s) = trace s.
Proof. reflexivity. Qed.

Lemma heap_set_heap (h : H) (s : state H R) : heap (set_heap h s) = h.
Proof. reflexivity. Qed.

Lemma prev_set_heap (h : H) (s : state H R) :
  prev_used_regions (set_heap h s) = prev_used_regions s.
Proof. reflexivity. Qed.

Lemma trace_set_ref_processor (rp : Z) (s : state H R) :
  trace (set_ref_processor rp s) = trace s.
Proof. reflexivity. Qed.

Lemma heap_set_ref_processor (rp : Z) (s : state H R) :
  heap (set_ref_processor rp s) = heap s.
Proof. reflexivity. Qed.

Lemma prev_set_ref_processor (rp : Z) (s : state H R) :
  prev_used_regions (set_ref_processor rp s) = prev_used_regions s.
Proof. reflexivity. Qed.

Lemma trace_set_derived (b : bool) (s : state H R) :
  trace (set_derived_pointers_active b s) = trace s.
Proof. reflexivity. Qed.

Lemma heap_set_derived (b : bool) (s : state H R) :
  heap (set_derived_pointers_active b s) = heap s.
Proof. reflexivity. Qed.

Lemma prev_set_derived (b : bool) (s : state H R) :
  prev_used_regions (set_derived_pointers_active b s) = prev_used_regions s.
Proof. reflexivity. Qed.

Lemma trace_increment (s : state H R) : trace (increment_invocations s) = trace s.
Proof. reflexivity. Qed.

Lemma heap_increment (s : state H R) : heap (increment_invocations s) = heap s.
Proof. reflexivity. Qed.

Lemma trace_save_used_regions (s : state H R) :
  trace (save_used_regions gch s) = trace s ++ [EvSaveUsedRegions].
Proof. reflexivity. Qed.

Lemma heap_save_used_regions (s : state H R) : heap (save_used_regions gch s) = heap s.
Proof. reflexivity. Qed.

Lemma prev_save_used_regions (s : state H R) :
  prev_used_regions (save_used_regions gch s) = Some (used_regions gch (heap s)).
Proof. reflexivity. Qed.

Lemma trace_allocate_stacks (s : state H R) :
  trace (allocate_stacks gch s) = trace s ++ [EvAllocateStacks].
Proof. reflexivity. Qed.

Lemma heap_allocate_stacks (s : state H R) : heap (allocate_stacks gch s) = heap s.
Proof. reflexivity. Qed.

Lemma prev_allocate_stacks (s : state H R) :
  prev_used_regions (allocate_stacks gch s) = prev_used_regions s.
Proof. reflexivity. Qed.

Lemma trace_deallocate_stacks (s : state H R) :
  trace (deallocate_stacks gch s) = trace s ++ [EvDeallocateStacks].
Proof. reflexivity. Qed.

Lemma prev_deallocate_stacks (s : state H R) :
  prev_used_regions (deallocate_stacks gch s) = prev_used_regions s.
Proof. reflexivity. Qed.

Lemma trace_phase2 (s : state H R) :
  trace (mark_sweep_phase2 gch s) = trace s ++ [EvEnter Plan; EvLeave Plan].
Proof. unfold mark_sweep_phase2. cbn [trace log set_heap]. now rewrite <- app_assoc. Qed.

Lemma prev_phase2 (s : state H R) :
  prev_used_regions (mark_sweep_phase2 gch s) = prev_used_regions s.
Proof. reflexivity. Qed.

Lemma trace_phase3 (s : state H R) :
  trace (mark_sweep_phase3 gch s) = trace s ++ [EvEnter Adjust; EvLeave Adjust].
Proof. unfold mark_sweep_phase3. cbn [trace log set_heap]. now rewrite <- app_assoc. Qed.

Lemma prev_phase3 (s : state H R) :
  prev_used_regions (mark_sweep_phase3 gch s) = prev_used_regions s.
Proof. reflexivity. Qed.

Lemma trace_phase4 (s : state H R) :
  trace (mark_sweep_phase4 gch s) = trace s ++ [EvEnter Move; EvLeave Move].
Proof. unfold mark_sweep_phase4. cbn [trace log set_heap]. now rewrite <- app_assoc. Qed.

Lemma prev_phase4 (s : state H R) :
  prev_used_regions (mark_sweep_phase4 gch s) = prev_used_regions s.
Proof. reflexivity. Qed.

Lemma trace_restore_marks (s : state H R) :
  trace (restore_marks gch s) = trace s ++ [EvRestoreMarks].
Proof. reflexivity. Qed.

Lemma prev_restore_marks (s : state H R) :
  prev_used_regions (restore_marks gch s) = prev_used_regions s.
Proof. reflexivity. Qed.

Lemma phase1_done (clear_all_softrefs : bool) (s s1 : state H R) :
  mark_sweep_phase1 ASSERT gch clear_all_softrefs s = Done s1 ->
  trace s1 = trace s ++ [EvEnter Mark; EvLeave Mark]
  /\ prev_used_regions s1 = prev_used_regions s
  /\ (ASSERT = true -> stack_after_reference_processing gch s = []).
Proof.
  unfold mark_sweep_phase1, stack_after_reference_processing.
  cbn [heap _marking_stack log set_heap set_marking_stack].
  unfold vmassert. destruct ASSERT; cbn [obind].
  - destruct (snd (process_discovered_references _ _ _)); cbn [obind];
      [|discriminate].
    intros [= <-]. cbn [trace prev_used_regions log set_heap set_marking_stack].
    rewrite <- app_assoc. auto.
  - intros [= <-]. cbn [trace prev_used_regions log set_heap set_marking_stack].
    rewrite <- app_assoc. repeat split. discriminate.
Qed.

Lemma invoke_at_safepoint_trace (rp : Z) (clear_all_softrefs : bool)
    (s s' : state H R) :
  invoke_at_safepoint ASSERT gch rp clear_all_softrefs s = Done s' ->
  trace s' = trace s ++ collection_events gch (heap s) (heap s').
Proof.
  intros Hrun. unfold invoke_at_safepoint in Hrun.
  do 4 (apply obind_unit_done in Hrun). cbv zeta in Hrun.
  destruct (mark_sweep_phase1 ASSERT gch clear_all_softrefs _) as [s1| |] eqn:Hp1;
    cbn [obind] in Hrun; try discriminate.
  apply phase1_done in Hp1 as (Ht1 & Hprev1 & _).
  match type of Hrun with
  | obind ?m _ = _ => destruct m as [s2| |] eqn:Hdp
  end; cbn [obind] in Hrun; try discriminate.
  assert (Hs2 : trace s2 = trace (mark_sweep_phase2 gch s1)
                /\ prev_used_regions s2 = prev_used_regions (mark_sweep_phase2 gch s1)).
  { destruct (COMPILER2_OR_JVMCI gch).
    - apply obind_unit_done in Hdp. injection Hdp as <-. auto.
    - injection Hdp as <-. auto. }
  destruct Hs2 as (Ht2 & Hprev2).
  apply Done_inj in Hrun. subst s'.
  set (s13 := log EvStringDedupFlush _).
  assert (Ht13 : trace s13 = trace s ++
            [ EvTraceHeapBeforeGC; EvSaveUsedRegions; EvAllocateStacks;
              EvEnter Mark; EvLeave Mark; EvEnter Plan; EvLeave Plan;
              EvEnter Adjust; EvLeave Adjust; EvEnter Move; EvLeave Move;
              EvRestoreMarks; EvSaveMarks; EvDeallocateStacks; EvStringDedupFlush ]).
  { unfold s13.
    rewrite trace_log, trace_deallocate_stacks, trace_log, trace_set_heap,
      trace_restore_marks, trace_phase4, trace_phase3, Ht2, trace_phase2, Ht1,
      trace_allocate_stacks, trace_save_used_regions, trace_increment, trace_log,
      trace_set_ref_processor.
    rewrite <- !app_assoc. reflexivity. }
  assert (Hprev13 : prev_used_regions s13 = Some (used_regions gch (heap s))).
  { unfold s13.
    rewrite prev_log, prev_deallocate_stacks, prev_log, prev_set_heap,
      prev_restore_marks, prev_phase4, prev_phase3, Hprev2, prev_phase2, Hprev1,
      prev_allocate_stacks, prev_save_used_regions.
    reflexivity. }
  clearbody s13.
  rewrite !heap_log, heap_set_ref_processor, heap_log.
  rewrite !trace_log, trace_set_ref_processor, trace_log.
  unfold collection_events. rewrite Hprev13.
  destruct (young_used gch (heap s13) =? 0) eqn:Hy;
    rewrite heap_log, trace_log, Ht13, Hy, <- !app_assoc; reflexivity.
Qed.

Lemma phase1_completes (clear_all_softrefs : bool) (s : state H R) :
  (ASSERT = true -> stack_after_reference_processing gch s = []) ->
  exists s1,
    mark_sweep_phase1 ASSERT gch clear_all_softrefs s = Done s1
    /\ derived_pointers_active s1 = derived_pointers_active s.
Proof.
  intros Hstack.
  unfold mark_sweep_phase1, vmassert.
  unfold stack_after_reference_processing in Hstack.
  cbn [heap _marking_stack log set_heap set_marking_stack] in *.
  destruct ASSERT.
  - rewrite (Hstack eq_refl). cbn [obind]. eexists. split; reflexivity.
  - cbn [obind]. eexists. split; reflexivity.
Qed.

(** A product build completes every collection; a debug build completes
    those whose assertions hold. *)
Lemma invoke_at_safepoint_completes (rp : Z) (clear_all_softrefs : bool)
    (s : state H R) :
  (ASSERT = true -> collection_asserts_hold gch rp clear_all_softrefs s) ->
  is_done (invoke_at_safepoint ASSERT gch rp clear_all_softrefs s) = true.
Proof.
  intros Hok. unfold invoke_at_safepoint.
  set (s4 := allocate_stacks gch _).
  destruct (phase1_completes clear_all_softrefs s4) as (s1 & Hp1 & Hd1).
  { intros HA. apply (Hok HA). }
  rewrite Hp1. unfold vmassert.
  destruct ASSERT.
  - destruct (Hok eq_refl) as (Hsafe & Hsoft & Href & Hrp & _ & Hdp).
    rewrite Hsafe, Href. apply Z.eqb_neq in Hrp. rewrite Hrp.
    cbn [obind negb].
    destruct (should_clear_all_soft_refs gch).
    + rewrite (Hsoft eq_refl). cbn [obind].
      destruct (COMPILER2_OR_JVMCI gch); [|reflexivity].
      replace (derived_pointers_active (mark_sweep_phase2 gch s1)) with true;
        [reflexivity|].
      symmetry. change (derived_pointers_active s1 = true).
      rewrite Hd1. apply Hdp. reflexivity.
    + cbn [obind].
      destruct (COMPILER2_OR_JVMCI gch); [|reflexivity].
      replace (derived_pointers_active (mark_sweep_phase2 gch s1)) with true;
        [reflexivity|].
      symmetry. change (derived_pointers_active s1 = true).
      rewrite Hd1. apply Hdp. reflexivity.
  - destruct (should_clear_all_soft_refs gch), (COMPILER2_OR_JVMCI gch); reflexivity.
Qed.

(** C6.  A collection that completes has entered and left the four
    phases exactly once each, in the order Mark, Plan, Adjust, Move,
    each phase left before the next is entered; the preserved marks are
    restored after Move is left, and the stacks are deallocated after
    that.  A product build completes every collection, a debug build
    those whose assertions hold. *)
Theorem phases_strictly_sequential (rp : Z) (clear_all_softrefs : bool)
    (s : state H R) :
  ((ASSERT = true -> collection_asserts_hold gch rp clear_all_softrefs s) ->
   is_done (invoke_at_safepoint ASSERT gch rp clear_all_softrefs s) = true)
  /\ forall s',
       invoke_at_safepoint ASSERT gch rp clear_all_softrefs s = Done s' ->
       exists evs,
         trace s' = trace s ++ evs
         /\ List.filter is_phase_event evs
            = [ EvEnter Mark; EvLeave Mark;
                EvEnter Plan; EvLeave Plan;
                EvEnter Adjust; EvLeave Adjust;
                EvEnter Move; EvLeave Move;
                EvRestoreMarks; EvDeallocateStacks ].
Proof.
  split; [apply invoke_at_safepoint_completes|].
  intros s' Hrun. apply invoke_at_safepoint_trace in Hrun.
  eexists. split; [exact Hrun|].
  unfold collection_events. cbn [List.filter is_phase_event].
  destruct (young_used gch (heap s') =? 0); reflexivity.
Qed.

(** C4.  In a collection that completes, the card table is touched
    once, after Move has been left, the marks restored and the stacks
    deallocated: by [clear_into_younger(old_gen)] if the young
    generation's [used()] in the heap the collection leaves behind is
    zero, by [invalidate_or_clear(old_gen)] otherwise; either call
    finds the used regions that were saved from the heap as it was on
    entry, before Mark. *)
Theorem card_table_policy (rp : Z) (clear_all_softrefs : bool)
    (s s' : state H R) :
  invoke_at_safepoint ASSERT gch rp clear_all_softrefs s = Done s' ->
  let decision :=
    if young_used gch (heap s') =? 0
    then EvClearIntoYounger old_gen (Some (used_regions gch (heap s)))
    else EvInvalidateOrClear old_gen (Some (used_regions gch (heap s))) in
  trace s' =
    trace s
    ++ [ EvTraceHeapBeforeGC; EvSaveUsedRegions; EvAllocateStacks;
         EvEnter Mark; EvLeave Mark; EvEnter Plan; EvLeave Plan;
         EvEnter Adjust; EvLeave Adjust; EvEnter Move; EvLeave Move;
         EvRestoreMarks; EvSaveMarks; EvDeallocateStacks; EvStringDedupFlush ]
    ++ [ decision ]
    ++ [ EvPruneScavengableNmethods; EvUpdateCapacityAndUsed;
         EvRecordWholeHeapExamined; EvTraceHeapAfterGC ]
  /\ List.filter is_card_table_event
       (collection_events gch (heap s) (heap s')) = [ decision ].
Proof.
  intros Hrun. apply invoke_at_safepoint_trace in Hrun.
  cbv zeta. rewrite Hrun. split; [reflexivity|].
  unfold collection_events. cbn [List.filter is_card_table_event].
  destruct (young_used gch (heap s') =? 0); reflexivity.
Qed.

(** C7 (as amended).  [mark_sweep_phase1] checks the marking stack as
    reference processing leaves it: a debug build aborts exactly when
    the stack is not empty at that point, whatever the stack held when
    root processing ended; a product build does not check. *)
Theorem marking_stack_checked_after_reference_processing
    (clear_all_softrefs : bool) (s : state H R) :
  match stack_after_reference_processing gch s with
  | [] => is_done (mark_sweep_phase1 true gch clear_all_softrefs s) = true
  | _ :: _ => mark_sweep_phase1 true gch clear_all_softrefs s
              = Fatal "Marking should have completed"
  end
  /\ is_done (mark_sweep_phase1 false gch clear_all_softrefs s) = true.
Proof.
  unfold mark_sweep_phase1, stack_after_reference_processing, vmassert.
  cbn [heap _marking_stack log set_heap set_marking_stack].
  split; [|reflexivity].
  destruct (snd (process_discovered_references _ _ _)); reflexivity.
Qed.

(** C10.  Without a scratch block [allocate_stacks] returns as usual,
    with a fast-path capacity [_preserved_count_max] of zero, a null
    [_preserved_marks] and a count of zero; every mark preserved after
    that goes to the overflow stack and none to the scratch region; and
    the collection completes as it does with a scratch block: always in
    a product build, and in a debug build when its assertions, none of
    which concerns the scratch block, hold. *)
Theorem allocate_stacks_without_scratch (rp : Z) (clear_all_softrefs : bool)
    (s : state H R) (records : list (Z * Z)) :
  gather_scratch gch (heap s) = None ->
  (_preserved_count_max (allocate_stacks gch s) = 0
   /\ _preserved_marks (allocate_stacks gch s) = 0
   /\ _preserved_count (allocate_stacks gch s) = 0
   /\ heap (allocate_stacks gch s) = heap s
   /\ trace (allocate_stacks gch s) = trace s ++ [EvAllocateStacks])
  /\ (let s2 := fold_left (fun st r => preserve_mark (fst r) (snd r) st)
                          records (allocate_stacks gch s) in
      _preserved_count s2 = 0
      /\ _preserved_scratch s2 = []
      /\ _preserved_overflow_stack s2 = rev records ++ _preserved_overflow_stack s)
  /\ ((ASSERT = true -> collection_asserts_hold gch rp clear_all_softrefs s) ->
      is_done (invoke_at_safepoint ASSERT gch rp clear_all_softrefs s) = true).
Proof.
  intros Hnone.
  split; [|split; [|apply invoke_at_safepoint_completes]].
  - unfold allocate_stacks. rewrite Hnone. repeat split.
  - cbv zeta.
    assert (Hgen : forall (recs : list (Z * Z)) (st : state H R),
              _preserved_count_max st = 0 -> _preserved_count st = 0 ->
              _preserved_scratch st = [] ->
              let s2 := fold_left (fun st r => preserve_mark (fst r) (snd r) st)
                                  recs st in
              _preserved_count s2 = 0 /\ _preserved_scratch s2 = []
              /\ _preserved_overflow_stack s2
                 = rev recs ++ _preserved_overflow_stack st).
    { induction recs as [|r recs IH]; intros st Hmax Hcnt Hscr; cbn [fold_left rev app].
      - auto.
      - assert (Hstep : preserve_mark (fst r) (snd r) st
                        = State (heap st) (prev_used_regions st)
                            (derived_pointers_active st) (_ref_processor st)
                            (_total_invocations st) (_preserved_count_max st)
                            (_preserved_marks st) (_preserved_count st)
                            (_preserved_scratch st)
                            ((fst r, snd r) :: _preserved_overflow_stack st)
                            (_marking_stack st) (_objarray_stack st) (trace st)).
        { unfold preserve_mark. rewrite Hmax, Hcnt. reflexivity. }
        rewrite Hstep. cbv zeta in IH.
        destruct (IH (State (heap st) (prev_used_regions st)
                            (derived_pointers_active st) (_ref_processor st)
                            (_total_invocations st) (_preserved_count_max st)
                            (_preserved_marks st) (_preserved_count st)
                            (_preserved_scratch st)
                            ((fst r, snd r) :: _preserved_overflow_stack st)
                            (_marking_stack st) (_objarray_stack st) (trace st)))
          as (H1 & H2 & H3); trivial.
        rewrite H1, H2, H3. cbn [_preserved_overflow_stack].
        rewrite <- app_assoc. destruct r. auto. }
    destruct (Hgen records (allocate_stacks gch s)) as (H1 & H2 & H3);
      try (unfold allocate_stacks; rewrite Hnone; reflexivity).
    cbv zeta in H1, H2, H3. rewrite H1, H2, H3. auto.
Qed.
End CollectionFacts.

(** Instances on the toy heap. *)

Lemma phases_strictly_sequential_witness :
  exists s',
    invoke_at_safepoint true sample_gch 4096 false sample_state = Done s'
    /\ exists evs,
         trace s' = trace sample_state ++ evs
         /\ List.filter is_phase_event evs
            = [ EvEnter Mark; EvLeave Mark;
                EvEnter Plan; EvLeave Plan;
                EvEnter Adjust; EvLeave Adjust;
                EvEnter Move; EvLeave Move;
                EvRestoreMarks; EvDeallocateStacks ].
Proof.
  eexists. split; [vm_compute; reflexivity|].
  apply (proj2 (phases_strictly_sequential true sample_gch 4096 false sample_state)).
  vm_compute. reflexivity.
Defined.

Lemma card_table_policy_witness :
  exists s',
    invoke_at_safepoint true sample_gch 4096 false sample_state = Done s'
    /\ young_used sample_gch (heap s') = 0
    /\ trace s' =
         [ EvTraceHeapBeforeGC; EvSaveUsedRegions; EvAllocateStacks;
           EvEnter Mark; EvLeave Mark; EvEnter Plan; EvLeave Plan;
           EvEnter Adjust; EvLeave Adjust; EvEnter Move; EvLeave Move;
           EvRestoreMarks; EvSaveMarks; EvDeallocateStacks; EvStringDedupFlush;
           EvClearIntoYounger old_gen (Some (100, 200));
           EvPruneScavengableNmethods; EvUpdateCapacityAndUsed;
           EvRecordWholeHeapExamined; EvTraceHeapAfterGC ].
Proof.
  eexists. split; [vm_compute; reflexivity|]. split; [reflexivity|].
  refine (proj1 (card_table_policy true sample_gch 4096 false sample_state _ _)).
  vm_compute. reflexivity.
Defined.

(** The other branch: the young generation is still in use after the
    collection, and the card table is invalidated. *)
Example card_table_invalidated :
  match invoke_at_safepoint true in_place_gch 4096 false sample_state with
  | Done s' =>
      young_used in_place_gch (heap s') = 100
      /\ List.filter is_card_table_event (trace s')
         = [ EvInvalidateOrClear old_gen (Some (100, 200)) ]
  | _ => False
  end.
Proof. vm_compute. split; reflexivity. Qed.

Lemma allocate_stacks_without_scratch_witness :
  _preserved_count_max (allocate_stacks sample_gch sample_state) = 0
  /\ _preserved_overflow_stack
       (fold_left (fun st r => preserve_mark (fst r) (snd r) st)
                  [(4096, 1); (8192, 5)] (allocate_stacks sample_gch sample_state))
     = [(8192, 5); (4096, 1)].
Proof.
  destruct (allocate_stacks_without_scratch true sample_gch 4096 false sample_state
              [(4096, 1); (8192, 5)] eq_refl) as ((Hmax & _) & (_ & _ & Hov) & _).
  split; [exact Hmax | exact Hov].
Defined.

(** C7 (as stated) fails: with [lazy_roots_gch] the marking stack is not
    empty when root processing ends, and a debug build neither aborts
    there nor later, since the only check comes after reference
    processing. *)
Lemma work_left_after_roots_is_not_fatal :
  stack_after_roots lazy_roots_gch sample_state = [4096]
  /\ stack_after_reference_processing lazy_roots_gch sample_state = []
  /\ is_fatal (mark_sweep_phase1 true lazy_roots_gch false sample_state) = false
  /\ is_done (mark_sweep_phase1 true lazy_roots_gch false sample_state) = true
  /\ is_done (invoke_at_safepoint true lazy_roots_gch 4096 false sample_state) = true.
Proof. repeat split; vm_compute; reflexivity. Qed.

(* ===================================================================== *)
(** * Part III: further properties of the embedded code                   *)
(* ===================================================================== *)

(** ** The entry encoding *)

(** X1.  The three kinds of entry exclude one another and exhaust all words:
    an entry is an array slice, or else exactly one of an [oop*] and a
    [narrowOop*]; the null entry, which the default constructor builds,
    counts as an [oop*]. *)
Theorem entry_kinds_partition (e : entry) :
  is_oop e = negb (is_array_slice e)
  /\ is_oop e = is_oop_ptr e || is_narrow_oop_ptr e
  /\ is_oop_ptr e && is_narrow_oop_ptr e = false
  /\ is_array_slice e && (is_oop_ptr e || is_narrow_oop_ptr e) = false
  /\ is_null new_empty = true
  /\ is_oop_ptr new_empty = true
  /\ (is_null e = true -> e = new_empty).
Proof.
  unfold is_oop, is_array_slice, is_oop_ptr, is_narrow_oop_ptr, is_null.
  destruct e as [val]; cbn [_val].
  destruct (decode_is_chunked val), (Z.land val NarrowOopTag =? 0); cbn.
  all: repeat split; trivial.
  all: intros Hz; apply Z.eqb_eq in Hz; now subst val.
Qed.

(** X2.  Testing for chunkedness tests the chunk and the power fields
    together: an entry is an array slice exactly when its chunk number
    or its power is not zero. *)
Theorem is_array_slice_iff (e : entry) :
  is_array_slice e = true <-> chunk e <> 0 \/ pow e <> 0.
Proof.
  unfold is_array_slice, chunk, pow, decode_is_chunked.
  rewrite land_chunk_pow_extract_mask, decode_chunk_eq, decode_pow_eq.
  rewrite negb_true_iff, Z.eqb_neq.
  split; intros Hne; Z.div_mod_to_equations; lia.
Qed.

(** What the reference mask keeps is an encodable address. *)
Lemma land_oop_extract_mask_encodable (val o : Z) :
  Z.land val oop_extract_mask = o -> encodable o.
Proof.
  rewrite land_oop_extract_mask. intros <-. unfold encodable.
  Z.div_mod_to_equations; lia.
Qed.

Lemma new_tagged_debug_done (o tag : Z) :
  0 <= tag <= 1 -> is_done (new_tagged true o tag) = true -> encodable o.
Proof.
  intros Ht. unfold new_tagged, decode, vmassert. cbn [obind].
  destruct (has_tag (encode_oop o tag) tag); cbn [obind is_done]; [|discriminate].
  destruct (Z.eqb_spec (Z.land (encode_oop o tag) oop_extract_mask) o) as [Ho|Ho];
    cbn [obind is_done]; [|discriminate].
  intros _. eapply land_oop_extract_mask_encodable; exact Ho.
Qed.

(** X3.  In a debug build each of the three plain constructors returns
    exactly for the encodable addresses: below 2^49 and with the two low
    bits clear. *)
Theorem plain_constructors_debug_iff (o : Z) :
  (is_done (new_oop true o) = true <-> encodable o)
  /\ (is_done (new_oop_ptr true o) = true <-> encodable o)
  /\ (is_done (new_narrow_oop_ptr true o) = true <-> encodable o).
Proof.
  assert (Hgen : forall tag, 0 <= tag <= 1 ->
            (is_done (new_tagged true o tag) = true <-> encodable o)).
  { intros tag Ht. split.
    - now apply new_tagged_debug_done.
    - intros He. destruct (new_tagged_done true o tag He Ht) as (Hn & _).
      now rewrite Hn. }
  unfold new_oop, new_oop_ptr, new_narrow_oop_ptr.
  split; [|split]; apply Hgen; unfold OopTag, NarrowOopTag; lia.
Qed.

(** X4.  In a product build nothing is checked: a reference at or above
    2^49 is stored as it is, and the entry then reads as an array slice
    whose [to_oop] is not the reference. *)
Theorem product_reference_above_budget (o : Z) :
  2 ^ 49 <= o < 2 ^ 64 ->
  exists e, new_oop false o = Done e
    /\ is_array_slice e = true
    /\ is_oop_ptr e = false
    /\ (forall o', to_oop false e = Done o' -> o' < o).
Proof.
  intros Ho. exists (Entry o).
  assert (Hv : encode_oop o OopTag = o).
  { unfold encode_oop, OopTag. rewrite Z.add_0_r.
    apply to_uintptr_small. unfold is_uintptr. lia. }
  assert (Hch : decode_is_chunked o = true).
  { unfold decode_is_chunked. rewrite land_chunk_pow_extract_mask.
    apply negb_true_iff, Z.eqb_neq. Z.div_mod_to_equations; lia. }
  split; [|split; [|split]].
  - unfold new_oop, new_tagged, vmassert. cbn [obind]. now rewrite Hv.
  - exact Hch.
  - unfold is_oop_ptr. cbn [_val]. now rewrite Hch.
  - unfold to_oop, decode, vmassert. cbn [obind _val].
    intros o' [= <-]. rewrite land_oop_extract_mask.
    Z.div_mod_to_equations; lia.
Qed.

Lemma product_reference_above_budget_witness :
  exists e, new_oop false (2 ^ 50 + 8) = Done e
    /\ is_array_slice e = true
    /\ is_oop_ptr e = false
    /\ (forall o', to_oop false e = Done o' -> o' < 2 ^ 50 + 8).
Proof. apply (product_reference_above_budget (2 ^ 50 + 8)). lia. Defined.

(** The chunked constructor in either build, for every triple it
    accepts in a debug build. *)
Lemma new_slice_accepts (ASSERT : bool) (o c p : Z) :
  encodable o -> 0 <= c < 1024 -> 0 <= p < 32 -> c <> 0 \/ p <> 0 ->
  new_slice ASSERT o c p = Done (slice_entry o c p)
  /\ chunk (slice_entry o c p) = c
  /\ pow (slice_entry o c p) = p
  /\ to_oop ASSERT (slice_entry o c p) = Done o
  /\ is_array_slice (slice_entry o c p) = true.
Proof.
  intros [Ho Ha] Hc Hp Hnz. unfold new_slice, slice_entry.
  rewrite slice_word by lia.
  unfold to_oop, chunk, pow, is_array_slice; cbn [_val].
  set (w := o + p * 2 ^ 49 + c * 2 ^ 54).
  assert (Hd : decode ASSERT w OopTag = Done o).
  { apply decode_done; unfold OopTag, w; Z.div_mod_to_equations; lia. }
  assert (Hck : decode_chunk w = c).
  { rewrite decode_chunk_eq. unfold w. Z.div_mod_to_equations; lia. }
  assert (Hpw : decode_pow w = p).
  { rewrite decode_pow_eq. unfold w. Z.div_mod_to_equations; lia. }
  assert (Hch : decode_is_chunked w = true).
  { unfold decode_is_chunked. rewrite land_chunk_pow_extract_mask.
    apply negb_true_iff, Z.eqb_neq. unfold w. Z.div_mod_to_equations; lia. }
  repeat split; trivial.
  unfold vmassert. destruct ASSERT; [|reflexivity].
  rewrite Hd, Hck, Hpw, Hch. cbn [obind]. now rewrite !Z.eqb_refl.
Qed.

(** X5.  In a debug build the chunked constructor returns exactly for an
    encodable address, a chunk number in [0 .. 1023] and a power in
    [0 .. 31] that are not both zero; chunk number 0 is accepted with a
    power other than 0. *)
Theorem new_slice_debug_iff (o c p : Z) :
  is_done (new_slice true o c p) = true
  <-> encodable o /\ 0 <= c < 1024 /\ 0 <= p < 32 /\ (c <> 0 \/ p <> 0).
Proof.
  split.
  - unfold new_slice.
    set (enc := Z.lor _ _).
    assert (Henc : enc = Z.lor (Z.lor (encode_oop o OopTag) (encode_chunk c))
                               (encode_pow p)) by reflexivity.
    clearbody enc.
    pose proof (decode_chunk_range enc) as Hck.
    pose proof (decode_pow_range enc) as Hpw.
    unfold decode; unfold vmassert. cbn [obind].
    destruct (has_tag enc OopTag); cbn [obind is_done]; [|discriminate].
    destruct (Z.eqb_spec (Z.land enc oop_extract_mask) o) as [Ho|Ho];
      cbn [obind is_done]; [|discriminate].
    destruct (Z.eqb_spec (decode_chunk enc) c) as [Hc|Hc];
      cbn [obind is_done]; [|discriminate].
    destruct (Z.eqb_spec (decode_pow enc) p) as [Hp|Hp];
      cbn [obind is_done]; [|discriminate].
    destruct (decode_is_chunked enc) eqn:Hch; cbn [obind is_done]; [|discriminate].
    intros _.
    pose proof (land_oop_extract_mask_encodable enc o Ho) as He.
    split; [exact He|]. split; [lia|]. split; [lia|].
    destruct He as [Hr _].
    rewrite slice_word in Henc by lia. subst enc.
    unfold decode_is_chunked in Hch. rewrite land_chunk_pow_extract_mask in Hch.
    apply negb_true_iff, Z.eqb_neq in Hch.
    destruct (Z.eq_dec c 0) as [->|]; [|now left].
    destruct (Z.eq_dec p 0) as [->|]; [|now right].
    exfalso. apply Hch. Z.div_mod_to_equations; lia.
  - intros (He & Hc & Hp & Hnz).
    destruct (new_slice_accepts true o c p He Hc Hp Hnz) as (Hn & _).
    now rewrite Hn.
Qed.

(** X6.  No two distinct accepted triples share an entry, in either build,
    and no entry of an accepted triple is the entry of a plain
    reference. *)
Theorem entries_not_confused (ASSERT : bool) (o c p o' c' p' ref tag : Z) :
  encodable o -> 0 <= c < 1024 -> 0 <= p < 32 -> c <> 0 \/ p <> 0 ->
  encodable o' -> 0 <= c' < 1024 -> 0 <= p' < 32 -> c' <> 0 \/ p' <> 0 ->
  encodable ref -> 0 <= tag <= 1 ->
  (new_slice ASSERT o c p = new_slice ASSERT o' c' p' ->
   o = o' /\ c = c' /\ p = p')
  /\ new_slice ASSERT o c p <> new_tagged ASSERT ref tag.
Proof.
  intros He Hc Hp Hnz He' Hc' Hp' Hnz' Hr Ht.
  destruct (new_slice_accepts ASSERT o c p He Hc Hp Hnz) as (Hn & E1 & E2 & E3 & E4).
  destruct (new_slice_accepts ASSERT o' c' p' He' Hc' Hp' Hnz')
    as (Hn' & E1' & E2' & E3' & E4').
  destruct (new_tagged_done ASSERT ref tag Hr Ht) as (Ht' & _ & Hplain).
  split.
  - rewrite Hn, Hn'. intros Heq. apply Done_inj in Heq.
    rewrite Heq in E1, E2, E3.
    repeat split; congruence.
  - rewrite Hn, Ht'. intros Heq. apply Done_inj in Heq.
    unfold is_array_slice in E4. rewrite Heq in E4. cbn [_val] in E4. congruence.
Qed.

Lemma entries_not_confused_witness :
  (new_slice true 4096 3 7 = new_slice true 4096 3 7 ->
   4096 = 4096 /\ 3 = 3 /\ 7 = 7)
  /\ new_slice true 4096 3 7 <> new_tagged true 8192 1.
Proof.
  assert (H1 : encodable 4096) by (split; [lia | reflexivity]).
  assert (H2 : encodable 8192) by (split; [lia | reflexivity]).
  apply (entries_not_confused true 4096 3 7 4096 3 7 8192 1); trivial; lia.
Defined.

(** X7.  The pointer accessors check the tag and nothing else.  In a debug
    build exactly one of [to_oop_ptr] and [to_narrow_oop_ptr] returns,
    whatever the entry; in a product build both return, and the same
    address; and what an accessor returns is the entry with the tag and
    the chunk fields masked out, an encodable address. *)
Theorem accessors_check_the_tag (e : entry) :
  is_done (to_oop_ptr true e) = negb (is_done (to_narrow_oop_ptr true e))
  /\ to_narrow_oop_ptr false e = to_oop_ptr false e
  /\ (forall (ASSERT : bool) (o : Z),
        to_oop_ptr ASSERT e = Done o \/ to_narrow_oop_ptr ASSERT e = Done o ->
        to_oop_ptr false e = Done o /\ encodable o).
Proof.
  unfold to_oop_ptr, to_narrow_oop_ptr, decode, vmassert.
  rewrite !has_tag_eq. change OopTag with 0. change NarrowOopTag with 1.
  cbn [obind].
  split; [|split].
  - destruct (Z.eqb_spec (_val e mod 2) 0), (Z.eqb_spec (_val e mod 2) 1);
      cbn [obind is_done negb]; trivial; exfalso; Z.div_mod_to_equations; lia.
  - reflexivity.
  - intros ASSERT o Hacc.
    assert (Ho : Z.land (_val e) oop_extract_mask = o).
    { destruct ASSERT, Hacc as [Hacc|Hacc], (_val e mod 2 =? 0), (_val e mod 2 =? 1);
        cbn [obind] in Hacc; try discriminate; now injection Hacc. }
    split; [now rewrite Ho|].
    apply (land_oop_extract_mask_encodable (_val e)). exact Ho.
Qed.

(** ** Slicing: what each call pushes and scans *)

Lemma left_halves_succ (array c p : Z) (n : nat) :
  left_halves array c p (S n)
  = slice_entry array (c * 2 - 1) (p - 1) :: left_halves array (c * 2) (p - 1) n.
Proof.
  unfold left_halves. cbn [seq map]. f_equal.
  rewrite <- seq_shift, map_map. apply map_ext. intros k.
  rewrite Nat2Z.inj_succ, Z.pow_succ_r by lia.
  f_equal; lia.
Qed.

Lemma pow2_lt_1024 (n : nat) : 2 ^ Z.of_nat n < 1024 -> (n <= 9)%nat.
Proof.
  intros H. change 1024 with (2 ^ 10) in H.
  apply Z.pow_lt_mono_r_iff in H; lia.
Qed.

Section SlicingCalls.
Variable ASSERT : bool.
Variable ObjArrayMarkingStride : Z.
Variable is_objArray : Z -> bool.
Variable should_be_sliced : Z -> bool.
Variable objArray_length : Z -> Z.
Variable scan_words : Z -> Z -> Z -> Z.
Variable array : Z.
Variable len : Z.

Hypothesis array_encodable : encodable array.
Hypothesis array_is_objArray : is_objArray array = true.
Hypothesis array_should_be_sliced : should_be_sliced array = true.
Hypothesis array_length : objArray_length array = len.
Hypothesis len_range : 1 <= len < 2 ^ 31.
Hypothesis stride_range : 0 < ObjArrayMarkingStride < 2 ^ 31.

Lemma slice_split_loop_closed (fuel : nat) :
  forall (c p : Z) (t : G1CMTask),
    1 <= c < 1024 -> 0 <= p <= 30 -> p < Z.of_nat fuel ->
    exists n : nat,
      Z.of_nat n <= p
      /\ c * 2 ^ Z.of_nat n < 1024
      /\ slice_split_loop ASSERT ObjArrayMarkingStride fuel array c p t
         = Done (c * 2 ^ Z.of_nat n, p - Z.of_nat n,
                 push_all t (left_halves array c p n))
      /\ keep_splitting ObjArrayMarkingStride (c * 2 ^ Z.of_nat n) (p - Z.of_nat n)
         = false
      /\ (forall k : nat, (k < n)%nat ->
            keep_splitting ObjArrayMarkingStride (c * 2 ^ Z.of_nat k) (p - Z.of_nat k)
            = true)
      /\ queue_weight (left_halves array c p n) + 2 ^ (p - Z.of_nat n) = 2 ^ p.
Proof.
  induction fuel as [|fuel IH]; intros c p t Hc Hp Hfuel; [lia|].
  cbn [slice_split_loop].
  destruct (keep_splitting ObjArrayMarkingStride c p) eqn:Hk.
  - destruct (keep_splitting_true ObjArrayMarkingStride stride_range c p Hc Hp Hk)
      as (Hp1 & Hc2 & Hs).
    rewrite (int_sub_exact p 1) by (unfold is_int; lia).
    rewrite (int_mul_exact c 2) by (unfold is_int; lia).
    rewrite (int_sub_exact (c * 2) 1) by (unfold is_int; lia).
    rewrite new_slice_done by (trivial; lia). cbn [obind].
    fold (slice_entry array (c * 2 - 1) (p - 1)).
    destruct (IH (c * 2) (p - 1) (push t (slice_entry array (c * 2 - 1) (p - 1))))
      as (n & Hn & Hcn & Hrun & Hstop & Hgo & Hw); [lia | lia | lia |].
    assert (Hpow : 2 ^ Z.of_nat (S n) = 2 * 2 ^ Z.of_nat n)
      by (rewrite Nat2Z.inj_succ, Z.pow_succ_r; lia).
    exists (S n).
    replace (c * 2 ^ Z.of_nat (S n)) with (c * 2 * 2 ^ Z.of_nat n) by (rewrite Hpow; ring).
    replace (p - Z.of_nat (S n)) with (p - 1 - Z.of_nat n) by lia.
    split; [lia|]. split; [exact Hcn|].
    split; [rewrite Hrun, left_halves_succ; reflexivity|].
    split; [exact Hstop|].
    split.
    + intros [|k] Hlt.
      * change (Z.of_nat 0) with 0. rewrite Z.pow_0_r, Z.mul_1_r, Z.sub_0_r. exact Hk.
      * specialize (Hgo k ltac:(lia)).
        replace (c * 2 ^ Z.of_nat (S k)) with (c * 2 * 2 ^ Z.of_nat k)
          by (rewrite Nat2Z.inj_succ, Z.pow_succ_r by lia; ring).
        replace (p - Z.of_nat (S k)) with (p - 1 - Z.of_nat k) by lia.
        exact Hgo.
    + rewrite left_halves_succ. cbn [queue_weight].
      destruct (slice_entry_fields ASSERT array (c * 2 - 1) (p - 1) array_encodable)
        as (_ & Ep & _); try lia.
      rewrite Ep, (pow2_half p Hp1). lia.
  - exists O. change (Z.of_nat 0) with 0.
    rewrite Z.pow_0_r, Z.mul_1_r, Z.sub_0_r.
    cbn [left_halves seq map push_all fold_left queue_weight].
    repeat split; trivial; lia.
Qed.

(** [process_slice] on a full chunk, in closed form. *)
Lemma process_slice_closed (c p : Z) (t : G1CMTask) :
  1 <= c < 1024 -> 0 <= p <= 30 -> c * 2 ^ p <= len ->
  exists n : nat,
    Z.of_nat n <= p
    /\ c * 2 ^ Z.of_nat n < 1024
    /\ process_slice ASSERT ObjArrayMarkingStride is_objArray objArray_length
                     scan_words array c p t
       = Done (scan_words array ((c * 2 ^ Z.of_nat n - 1) * 2 ^ (p - Z.of_nat n))
                          (c * 2 ^ p),
               Task (rev (left_halves array c p n) ++ task_queue t)
                    (pushed t ++ left_halves array c p n)
                    (scanned t
                     ++ [(array, (c * 2 ^ Z.of_nat n - 1) * 2 ^ (p - Z.of_nat n),
                          c * 2 ^ p)])
                    (started t))
    /\ keep_splitting ObjArrayMarkingStride (c * 2 ^ Z.of_nat n) (p - Z.of_nat n)
       = false
    /\ (forall k : nat, (k < n)%nat ->
          keep_splitting ObjArrayMarkingStride (c * 2 ^ Z.of_nat k) (p - Z.of_nat k)
          = true)
    /\ queue_weight (left_halves array c p n) + 2 ^ (p - Z.of_nat n) = 2 ^ p.
Proof.
  intros Hc Hp Hin.
  destruct (slice_split_loop_closed loop_fuel c p t Hc Hp)
    as (n & Hn & Hcn & Hrun & Hstop & Hgo & Hw); [unfold loop_fuel; lia|].
  exists n. split; [exact Hn|]. split; [exact Hcn|].
  split; [|split; [exact Hstop | split; [exact Hgo | exact Hw]]].
  set (c' := c * 2 ^ Z.of_nat n) in *. set (p' := p - Z.of_nat n) in *.
  assert (Hn0 : 0 < 2 ^ Z.of_nat n) by (apply pow2_pos; lia).
  assert (Hx : 0 < 2 ^ p') by (apply pow2_pos; unfold p'; lia).
  assert (Hend : c' * 2 ^ p' = c * 2 ^ p).
  { unfold c', p'. rewrite <- Z.mul_assoc, <- Z.pow_add_r by lia.
    do 2 f_equal. lia. }
  assert (Hc' : 1 <= c') by (unfold c'; nia).
  unfold process_slice, vmassert.
  rewrite array_is_objArray, array_length.
  replace (ObjArrayMarkingStride >? 0) with true by (symmetry; apply Z.gtb_lt; lia).
  assert (Hbody :
    (s <- slice_split_loop ASSERT ObjArrayMarkingStride loop_fuel array c p t ;;
     let '(chunk, pow, t0) := s in
     let chunk_size := int_shl 1 pow in
     let from := int_mul (int_sub chunk 1) chunk_size in
     let to := int_mul chunk chunk_size in
     (if ASSERT then
        (b <- Done ((0 <=? from) && (from <? len)) ;;
         (if b then Done () else Fatal "from is sane")) ;;;
        (if ASSERT then
           b <- Done ((0 <? to) && (to <=? len)) ;;
           (if b then Done () else Fatal "to is sane")
         else Done ())
      else Done ()) ;;;
     Done (scan_objArray scan_words t0 array from to))
    = Done (scan_words array ((c' - 1) * 2 ^ p') (c * 2 ^ p),
            Task (rev (left_halves array c p n) ++ task_queue t)
                 (pushed t ++ left_halves array c p n)
                 (scanned t ++ [(array, (c' - 1) * 2 ^ p', c * 2 ^ p)]) (started t))).
  { rewrite Hrun. cbn [obind].
    rewrite (int_shl_1 p') by (unfold p'; lia).
    rewrite (int_sub_exact c' 1) by (unfold is_int; lia).
    rewrite (int_mul_exact (c' - 1)) by (unfold is_int; nia).
    rewrite (int_mul_exact c') by (unfold is_int; nia).
    rewrite Hend.
    replace (0 <=? (c' - 1) * 2 ^ p') with true by (symmetry; apply Z.leb_le; nia).
    replace ((c' - 1) * 2 ^ p' <? len) with true by (symmetry; apply Z.ltb_lt; nia).
    replace (0 <? c * 2 ^ p) with true by (symmetry; apply Z.ltb_lt; nia).
    replace (c * 2 ^ p <=? len) with true by (symmetry; apply Z.leb_le; lia).
    destruct (push_all_fields (left_halves array c p n) t) as (Q1 & Q2 & Q3 & Q4).
    unfold scan_objArray. rewrite Q1, Q2, Q3, Q4.
    destruct ASSERT; reflexivity. }
  destruct ASSERT; cbn [obind]; exact Hbody.
Qed.

(** X8.  [process_slice] on a descriptor of a full chunk [(c, p)] halves the
    chunk some [n] times, at most 9 and at most [p]: it pushes the [n]
    left halves [(2c-1, p-1)], [(4c-1, p-2)], ... in this order and
    scans the rightmost piece, of [2^(p-n)] elements, itself.  It stops
    halving as soon as the piece is no longer than the stride or the
    chunk number has reached 512, and not before. *)
Theorem process_slice_closed_form (c p : Z) (t : G1CMTask) :
  1 <= c < 1024 -> 0 <= p <= 30 -> c * 2 ^ p <= len ->
  exists n : nat,
    (n <= 9)%nat /\ Z.of_nat n <= p
    /\ process_slice ASSERT ObjArrayMarkingStride is_objArray objArray_length
                     scan_words array c p t
       = Done (scan_words array ((c * 2 ^ Z.of_nat n - 1) * 2 ^ (p - Z.of_nat n))
                          (c * 2 ^ p),
               Task (rev (left_halves array c p n) ++ task_queue t)
                    (pushed t ++ left_halves array c p n)
                    (scanned t
                     ++ [(array, (c * 2 ^ Z.of_nat n - 1) * 2 ^ (p - Z.of_nat n),
                          c * 2 ^ p)])
                    (started t))
    /\ (2 ^ (p - Z.of_nat n) <= ObjArrayMarkingStride \/ 512 <= c * 2 ^ Z.of_nat n)
    /\ (forall k : nat, (k < n)%nat ->
          ObjArrayMarkingStride < 2 ^ (p - Z.of_nat k) /\ c * 2 ^ Z.of_nat k < 512).
Proof.
  intros Hc Hp Hin.
  destruct (process_slice_closed c p t Hc Hp Hin)
    as (n & Hn & Hcn & Hrun & Hstop & Hgo & _).
  assert (Hn0 : 0 < 2 ^ Z.of_nat n) by (apply pow2_pos; lia).
  exists n. split; [|split; [exact Hn | split; [exact Hrun | split]]].
  - apply pow2_lt_1024. nia.
  - rewrite keep_splitting_spec in Hstop by (trivial; nia).
    apply andb_false_iff in Hstop as [H1|H2].
    + left. rewrite Z.gtb_ltb in H1. apply Z.ltb_ge in H1. exact H1.
    + right. apply Z.ltb_ge in H2. lia.
  - intros k Hk.
    assert (Hk0 : 0 < 2 ^ Z.of_nat k) by (apply pow2_pos; lia).
    assert (Hkn : 2 ^ Z.of_nat k <= 2 ^ Z.of_nat n) by (apply Z.pow_le_mono_r; lia).
    specialize (Hgo k Hk).
    apply keep_splitting_true in Hgo; trivial; [lia | nia | lia].
Qed.

(** X9.  A descriptor whose chunk is no longer than the stride, or whose
    chunk number has reached 512, is scanned whole and nothing is
    pushed; any other descriptor of a full chunk has its left half
    [(2c-1, p-1)] pushed first. *)
Theorem process_slice_splits_iff (c p : Z) (t : G1CMTask) :
  1 <= c < 1024 -> 0 <= p <= 30 -> c * 2 ^ p <= len ->
  (2 ^ p <= ObjArrayMarkingStride \/ 512 <= c ->
   process_slice ASSERT ObjArrayMarkingStride is_objArray objArray_length
                 scan_words array c p t
   = Done (scan_words array ((c - 1) * 2 ^ p) (c * 2 ^ p),
           Task (task_queue t) (pushed t)
                (scanned t ++ [(array, (c - 1) * 2 ^ p, c * 2 ^ p)]) (started t)))
  /\ (ObjArrayMarkingStride < 2 ^ p /\ c < 512 ->
      exists r t' rest,
        process_slice ASSERT ObjArrayMarkingStride is_objArray objArray_length
                      scan_words array c p t = Done (r, t')
        /\ pushed t' = pushed t ++ slice_entry array (2 * c - 1) (p - 1) :: rest).
Proof.
  intros Hc Hp Hin.
  destruct (process_slice_closed c p t Hc Hp Hin)
    as (n & Hn & Hcn & Hrun & Hstop & Hgo & _).
  pose proof (keep_splitting_spec ObjArrayMarkingStride stride_range c p Hc Hp) as Hk.
  split.
  - intros Hsmall.
    assert (Hk0 : keep_splitting ObjArrayMarkingStride c p = false).
    { rewrite Hk. apply andb_false_iff.
      destruct Hsmall as [H1|H2].
      - left. rewrite Z.gtb_ltb. apply Z.ltb_ge. exact H1.
      - right. apply Z.ltb_ge. lia. }
    destruct n as [|n].
    + rewrite Hrun. change (Z.of_nat 0) with 0.
      rewrite Z.pow_0_r, Z.mul_1_r, Z.sub_0_r.
      cbn [left_halves seq map rev app]. rewrite app_nil_r. reflexivity.
    + specialize (Hgo O ltac:(lia)). change (Z.of_nat 0) with 0 in Hgo.
      rewrite Z.pow_0_r, Z.mul_1_r, Z.sub_0_r in Hgo. congruence.
  - intros [Hs Hc5].
    assert (Hk1 : keep_splitting ObjArrayMarkingStride c p = true).
    { rewrite Hk. apply andb_true_iff. split.
      - apply Z.gtb_lt. exact Hs.
      - apply Z.ltb_lt. lia. }
    destruct n as [|n].
    + change (Z.of_nat 0) with 0 in Hstop.
      rewrite Z.pow_0_r, Z.mul_1_r, Z.sub_0_r in Hstop. congruence.
    + rewrite left_halves_succ in Hrun.
      eexists _, _, _. split; [exact Hrun|].
      cbn [pushed]. replace (c * 2) with (2 * c) by lia. reflexivity.
Qed.

(** *** [process_obj] *)

Lemma obj_split_loop_count (fuel : nat) :
  forall (c p last : Z) (t : G1CMTask),
    1 <= c < 1024 -> 0 <= p <= 30 -> c * 2 ^ p <= 2 ^ 31 ->
    last = (c - 1) * 2 ^ p -> last < len <= c * 2 ^ p -> p < Z.of_nat fuel ->
    exists c' p' last' new,
      obj_split_loop ASSERT ObjArrayMarkingStride fuel array len c p last t
        = Done (c', p', last', push_all t new)
      /\ c * 2 ^ Z.of_nat (length new) <= c'
      /\ 1 <= c' < 1024 /\ 0 <= p' <= p
      /\ last' = (c' - 1) * 2 ^ p'
      /\ last <= last' < len /\ len <= c' * 2 ^ p'
      /\ keep_splitting ObjArrayMarkingStride c' p' = false.
Proof.
  induction fuel as [|fuel IH]; intros c p last t Hc Hp Hcap Hlast Hlen Hfuel; [lia|].
  cbn [obj_split_loop].
  destruct (keep_splitting ObjArrayMarkingStride c p) eqn:Hk.
  - destruct (keep_splitting_true ObjArrayMarkingStride stride_range c p Hc Hp Hk)
      as (Hp1 & Hc2 & Hs).
    pose proof (pow2_half p Hp1) as Hhalf.
    pose proof (pow2_pos (p - 1) ltac:(lia)) as Hx.
    rewrite Hhalf in Hcap, Hlast, Hlen.
    rewrite (int_sub_exact p 1) by (unfold is_int; lia).
    rewrite (int_mul_exact c 2) by (unfold is_int; lia).
    rewrite (int_sub_exact (c * 2) 1) by (unfold is_int; lia).
    rewrite (int_shl_1 (p - 1)) by lia.
    set (x := 2 ^ (p - 1)) in *.
    rewrite (int_mul_exact (c * 2 - 1) x) by (unfold is_int; nia).
    destruct (Z.ltb_spec ((c * 2 - 1) * x) len) as [Hlt|Hge].
    + rewrite new_slice_done by (trivial; lia). cbn [obind].
      fold (slice_entry array (c * 2 - 1) (p - 1)).
      destruct (IH (c * 2) (p - 1) ((c * 2 - 1) * x)
                   (push t (slice_entry array (c * 2 - 1) (p - 1))))
        as (c' & p' & last' & new & Hrun & Hcnt & Hc' & Hp' & Hl' & Hb' & Hcov' & Hstop);
        [lia | lia | fold x; lia | reflexivity | fold x; lia | lia |].
      exists c', p', last', (slice_entry array (c * 2 - 1) (p - 1) :: new).
      split; [exact Hrun|].
      split.
      { cbn [length]. rewrite Nat2Z.inj_succ, Z.pow_succ_r by lia. lia. }
      repeat split; trivial; lia.
    + destruct (IH (c * 2 - 1) (p - 1) last t)
        as (c' & p' & last' & new & Hrun & Hcnt & Hc' & Hp' & Hl' & Hb' & Hcov' & Hstop);
        [lia | lia | fold x; lia | fold x; lia | fold x; lia | lia |].
      exists c', p', last', new.
      split; [exact Hrun|].
      assert (0 < 2 ^ Z.of_nat (length new)) by (apply pow2_pos; lia).
      split; [nia|].
      repeat split; trivial; lia.
  - exists c, p, last, []. cbn [push_all fold_left length].
    change (Z.of_nat 0) with 0. rewrite Z.pow_0_r.
    repeat split; trivial; lia.
Qed.

Lemma obj_split_loop_stop (fuel : nat) (c p last : Z) (t : G1CMTask) :
  keep_splitting ObjArrayMarkingStride c p = false ->
  obj_split_loop ASSERT ObjArrayMarkingStride fuel array len c p last t
  = Done (c, p, last, t).
Proof.
  intros Hk. destruct fuel; cbn [obj_split_loop]; rewrite Hk; reflexivity.
Qed.

Lemma obj_split_loop_first (fuel : nat) (c p last : Z) (t : G1CMTask) :
  1 <= c < 1024 -> 0 <= p <= 30 -> c * 2 ^ p <= 2 ^ 31 ->
  keep_splitting ObjArrayMarkingStride c p = true ->
  (c * 2 - 1) * 2 ^ (p - 1) < len ->
  obj_split_loop ASSERT ObjArrayMarkingStride (S fuel) array len c p last t
  = obj_split_loop ASSERT ObjArrayMarkingStride fuel array len (c * 2) (p - 1)
      ((c * 2 - 1) * 2 ^ (p - 1)) (push t (slice_entry array (c * 2 - 1) (p - 1))).
Proof.
  intros Hc Hp Hcap Hk Hlt.
  destruct (keep_splitting_true ObjArrayMarkingStride stride_range c p Hc Hp Hk)
    as (Hp1 & Hc2 & Hs).
  pose proof (pow2_half p Hp1) as Hhalf.
  pose proof (pow2_pos (p - 1) ltac:(lia)) as Hx.
  rewrite Hhalf in Hcap.
  cbn [obj_split_loop]. rewrite Hk.
  rewrite (int_sub_exact p 1) by (unfold is_int; lia).
  rewrite (int_mul_exact c 2) by (unfold is_int; lia).
  rewrite (int_sub_exact (c * 2) 1) by (unfold is_int; lia).
  rewrite (int_shl_1 (p - 1)) by lia.
  rewrite (int_mul_exact (c * 2 - 1) (2 ^ (p - 1))) by (unfold is_int; nia).
  replace ((c * 2 - 1) * 2 ^ (p - 1) <? len) with true
    by (symmetry; apply Z.ltb_lt; exact Hlt).
  rewrite new_slice_done by (trivial; lia). cbn [obind].
  reflexivity.
Qed.

(** [process_obj] in closed form: the state of the halving loop when it
    stops, [(c', p')], and the descriptors pushed. *)
Lemma process_obj_closed (t : G1CMTask) :
  exists c' p' last new,
    process_obj ASSERT ObjArrayMarkingStride is_objArray should_be_sliced
                objArray_length scan_words array t
      = Done (scan_words array last len,
              Task (rev new ++ task_queue t) (pushed t ++ new)
                   (scanned t ++ [(array, last, len)]) (started t ++ [array]))
    /\ 1 <= c' < 1024 /\ 0 <= p' <= 30
    /\ last = (c' - 1) * 2 ^ p' /\ 0 <= last < len /\ len <= c' * 2 ^ p'
    /\ keep_splitting ObjArrayMarkingStride c' p' = false
    /\ (length new <= 9)%nat
    /\ (2 ^ covering_power len <= ObjArrayMarkingStride -> new = [] /\ last = 0)
    /\ (ObjArrayMarkingStride < 2 ^ covering_power len ->
        exists rest, new = slice_entry array 1 (covering_power len - 1) :: rest).
Proof.
  destruct (covering_power_spec len len_range) as (Hb & Hcovers & H31 & Hprev).
  rewrite (process_obj_unfold ASSERT ObjArrayMarkingStride is_objArray
             should_be_sliced objArray_length scan_words array len
             array_is_objArray array_should_be_sliced array_length).
  rewrite (handle_overflow_spec ASSERT array len array_encodable len_range).
  cbn [obind].
  set (t0 := scan_objArray_start t array).
  destruct (Z.eqb_spec (covering_power len) 31) as [E|NE].
  - (* the overflow pre-split *)
    assert (Hbig : 2 ^ 30 < len) by (apply H31; exact E).
    destruct (obj_split_loop_count loop_fuel 2 30 (2 ^ 30)
                (push t0 (slice_entry array 1 30)))
      as (c' & p' & last' & new & Hrun & Hcnt & Hc' & Hp' & Hl' & Hb' & Hcov' & Hstop);
      [lia | lia | lia | lia | lia | unfold loop_fuel; lia |].
    rewrite Hrun. cbn [obind].
    replace (last' <? len) with true by (symmetry; apply Z.ltb_lt; lia).
    exists c', p', last', (slice_entry array 1 30 :: new).
    destruct (push_all_fields new (push t0 (slice_entry array 1 30)))
      as (Q1 & Q2 & Q3 & Q4).
    split.
    { unfold scan_objArray. rewrite Q1, Q2, Q3, Q4.
      cbn [push t0 scan_objArray_start task_queue pushed scanned started rev].
      rewrite <- !app_assoc. reflexivity. }
    split; [lia|]. split; [lia|]. split; [exact Hl'|]. split; [lia|].
    split; [lia|]. split; [exact Hstop|].
    split.
    { cbn [length]. apply pow2_lt_1024.
      rewrite Nat2Z.inj_succ, Z.pow_succ_r by lia. lia. }
    split.
    { intros Hsmall. rewrite E in Hsmall. lia. }
    intros _. exists new. rewrite E. reflexivity.
  - assert (Hb30 : covering_power len <= 30) by lia.
    set (cp := covering_power len) in *.
    assert (Hcp : 0 < 2 ^ cp) by (apply pow2_pos; lia).
    assert (Hcp30 : 2 ^ cp <= 2 ^ 30) by (apply Z.pow_le_mono_r; lia).
    pose proof (keep_splitting_spec ObjArrayMarkingStride stride_range 1 cp
                  ltac:(lia) ltac:(lia)) as Hk.
    destruct (Z.le_gt_cases (2 ^ cp) ObjArrayMarkingStride) as [Hsmall|Hlarge].
    + (* no splitting at all *)
      assert (Hk0 : keep_splitting ObjArrayMarkingStride 1 cp = false).
      { rewrite Hk. apply andb_false_iff. left. rewrite Z.gtb_ltb. apply Z.ltb_ge. exact Hsmall. }
      rewrite obj_split_loop_stop by exact Hk0. cbn [obind].
      replace (0 <? len) with true by (symmetry; apply Z.ltb_lt; lia).
      exists 1, cp, 0, [].
      split.
      { unfold scan_objArray. cbn [t0 scan_objArray_start task_queue pushed scanned
                                   started rev app].
        rewrite app_nil_r. reflexivity. }
      repeat split; trivial; cbn [length]; lia.
    + (* the first half is pushed, then the loop goes on *)
      assert (Hk1 : keep_splitting ObjArrayMarkingStride 1 cp = true).
      { rewrite Hk. apply andb_true_iff. split; [apply Z.gtb_lt; exact Hlarge | reflexivity]. }
      destruct (keep_splitting_true ObjArrayMarkingStride stride_range 1 cp
                  ltac:(lia) ltac:(lia) Hk1) as (Hp1 & _ & _).
      pose proof (pow2_half cp Hp1) as Hhalf.
      pose proof (pow2_pos (cp - 1) ltac:(lia)) as Hx.
      specialize (Hprev Hp1).
      change loop_fuel with (S 31).
      rewrite (obj_split_loop_first 31 1 cp 0 t0)
        by (trivial; change (1 * 2 - 1) with 1; lia).
      change (1 * 2 - 1) with 1. change (1 * 2) with 2. rewrite Z.mul_1_l.
      destruct (obj_split_loop_count 31 2 (cp - 1) (2 ^ (cp - 1))
                  (push t0 (slice_entry array 1 (cp - 1))))
        as (c' & p' & last' & new & Hrun & Hcnt & Hc' & Hp' & Hl' & Hb' & Hcov' & Hstop);
        [lia | lia | lia | lia | lia | lia |].
      rewrite Hrun. cbn [obind].
      replace (last' <? len) with true by (symmetry; apply Z.ltb_lt; lia).
      exists c', p', last', (slice_entry array 1 (cp - 1) :: new).
      destruct (push_all_fields new (push t0 (slice_entry array 1 (cp - 1))))
        as (Q1 & Q2 & Q3 & Q4).
      split.
      { unfold scan_objArray. rewrite Q1, Q2, Q3, Q4.
        cbn [push t0 scan_objArray_start task_queue pushed scanned started rev].
        rewrite <- !app_assoc. reflexivity. }
      split; [lia|]. split; [lia|]. split; [exact Hl'|]. split; [lia|].
      split; [lia|]. split; [exact Hstop|].
      split.
      { cbn [length]. apply pow2_lt_1024.
        rewrite Nat2Z.inj_succ, Z.pow_succ_r by lia. lia. }
      split; [intros; lia|].
      intros _. exists new. reflexivity.
Qed.

(** X10.  [process_obj] on an array above the slicing threshold returns what
    the scan of the tail [[last, len)] returns (the [return 0] at its
    end is never reached), with [0 <= last < len]; it pushes at most 9
    descriptors, and the tail it scans itself is no longer than the
    stride, or no longer than a 511th of what lies before it. *)
Theorem process_obj_scans_tail (t : G1CMTask) :
  exists last new,
    process_obj ASSERT ObjArrayMarkingStride is_objArray should_be_sliced
                objArray_length scan_words array t
      = Done (scan_words array last len,
              Task (rev new ++ task_queue t) (pushed t ++ new)
                   (scanned t ++ [(array, last, len)]) (started t ++ [array]))
    /\ 0 <= last < len
    /\ (length new <= 9)%nat
    /\ (len - last <= ObjArrayMarkingStride \/ 511 * (len - last) <= last).
Proof.
  destruct (process_obj_closed t)
    as (c' & p' & last & new & Hrun & Hc' & Hp' & Hl & Hb & Hcov & Hstop & Hn & _).
  exists last, new.
  split; [exact Hrun|]. split; [exact Hb|]. split; [exact Hn|].
  rewrite keep_splitting_spec in Hstop by trivial.
  pose proof (pow2_pos p' ltac:(lia)) as Hx.
  apply andb_false_iff in Hstop as [H1|H2].
  - left. rewrite Z.gtb_ltb in H1. apply Z.ltb_ge in H1. nia.
  - right. apply Z.ltb_ge in H2. nia.
Qed.

(** X11.  An array whose covering power of two is no larger than the stride
    is scanned whole by [process_obj] and nothing is pushed; for any
    other array the first descriptor pushed is the left half of the
    covering power of two, [(1, covering_power len - 1)]. *)
Theorem process_obj_splits_iff (t : G1CMTask) :
  (2 ^ covering_power len <= ObjArrayMarkingStride ->
   process_obj ASSERT ObjArrayMarkingStride is_objArray should_be_sliced
               objArray_length scan_words array t
   = Done (scan_words array 0 len,
           Task (task_queue t) (pushed t)
                (scanned t ++ [(array, 0, len)]) (started t ++ [array])))
  /\ (ObjArrayMarkingStride < 2 ^ covering_power len ->
      exists r t' rest,
        process_obj ASSERT ObjArrayMarkingStride is_objArray should_be_sliced
                    objArray_length scan_words array t = Done (r, t')
        /\ pushed t' = pushed t ++ slice_entry array 1 (covering_power len - 1) :: rest).
Proof.
  destruct (process_obj_closed t)
    as (c' & p' & last & new & Hrun & _ & _ & _ & _ & _ & _ & _ & Hsmall & Hlarge).
  split.
  - intros H. destruct (Hsmall H) as [-> ->].
    rewrite Hrun. cbn [rev app]. rewrite app_nil_r. reflexivity.
  - intros H. destruct (Hlarge H) as (rest & ->).
    eexists _, _, rest. split; [exact Hrun | reflexivity].
Qed.

(** *** Every scan is short *)

Lemma process_entry_short (e : entry) (t : G1CMTask) :
  good_entry array len 30 e ->
  exists t' rng,
    process_entry ASSERT ObjArrayMarkingStride is_objArray objArray_length
                  scan_words e t = Done t'
    /\ scanned t' = scanned t ++ [rng]
    /\ short_scan ObjArrayMarkingStride len rng.
Proof.
  intros (c & p & -> & Hc & Hp & Hin).
  destruct (slice_entry_fields ASSERT array c p array_encodable)
    as (Ec & Ep & Eo & Es); try lia.
  destruct (process_slice_closed c p t Hc Hp Hin)
    as (n & Hn & Hcn & Hrun & Hstop & _ & _).
  unfold process_entry. rewrite Es, Eo. cbn [obind]. rewrite Ec, Ep, Hrun.
  cbn [obind snd].
  eexists _, _. split; [reflexivity|]. split; [reflexivity|].
  assert (Hn0 : 0 < 2 ^ Z.of_nat n) by (apply pow2_pos; lia).
  assert (Hx : 0 < 2 ^ (p - Z.of_nat n)) by (apply pow2_pos; lia).
  assert (Hsplit : 2 ^ p = 2 ^ Z.of_nat n * 2 ^ (p - Z.of_nat n)).
  { rewrite <- Z.pow_add_r by lia. f_equal. lia. }
  rewrite keep_splitting_spec in Hstop by (trivial; nia).
  unfold short_scan. cbn [fst snd]. rewrite Hsplit in *.
  apply andb_false_iff in Hstop as [H1|H2].
  - left. rewrite Z.gtb_ltb in H1. apply Z.ltb_ge in H1. nia.
  - right. apply Z.ltb_ge in H2. nia.
Qed.

Lemma runs_short (t t' : G1CMTask) :
  runs ASSERT ObjArrayMarkingStride is_objArray objArray_length scan_words t t' ->
  Forall (good_entry array len 30) (task_queue t) ->
  Forall (short_scan ObjArrayMarkingStride len) (scanned t) ->
  Forall (short_scan ObjArrayMarkingStride len) (scanned t').
Proof.
  induction 1 as [t|t t1 t2 q1 q2 e Hq Hstep Hruns IH]; intros Hall Hs; [exact Hs|].
  destruct (process_entry_step ASSERT ObjArrayMarkingStride is_objArray
              objArray_length scan_words array len array_encodable
              array_is_objArray array_length len_range stride_range
              t q1 q2 e Hq Hall) as (t1' & Hrun & Hadv & _).
  rewrite Hstep in Hrun. apply Done_inj in Hrun. subst t1'.
  assert (He : good_entry array len 30 e).
  { rewrite Hq in Hall. apply Forall_app in Hall as [_ Hrest].
    apply Forall_cons in Hrest as [He _]. exact He. }
  destruct (process_entry_short e (set_queue t (q1 ++ q2)) He)
    as (t1' & rng & Hrun & Hsc & Hshort).
  rewrite Hstep in Hrun. apply Done_inj in Hrun. subst t1'.
  apply IH; [apply Hadv|].
  rewrite Hsc. cbn [set_queue scanned].
  apply Forall_app. split; [exact Hs|]. constructor; [exact Hshort | constructor].
Qed.

Lemma drain_runs (fuel : nat) :
  forall t t' : G1CMTask,
    drain ASSERT ObjArrayMarkingStride is_objArray objArray_length scan_words fuel t
      = Done t' ->
    runs ASSERT ObjArrayMarkingStride is_objArray objArray_length scan_words t t'.
Proof.
  induction fuel as [|fuel IH]; intros t t' Hd; cbn [drain] in Hd;
    destruct (task_queue t) as [|e q] eqn:Hq.
  - apply Done_inj in Hd. subst t'. constructor.
  - discriminate.
  - apply Done_inj in Hd. subst t'. constructor.
  - destruct (process_entry ASSERT ObjArrayMarkingStride is_objArray objArray_length
                scan_words e (set_queue t q)) as [t1| |] eqn:Hstep;
      cbn [obind] in Hd; try discriminate.
    eapply (runs_step) with (q1 := []) (q2 := q) (e := e) (t' := t1);
      [exact Hq | exact Hstep |].
    apply IH, Hd.
Qed.

(** X12.  No single scan is long: marking an array, in whatever order the
    queued descriptors are taken, every range handed to
    [scan_objArray] - the tail as well as each piece of a chunk - has
    at most [ObjArrayMarkingStride] elements, or less than one 511th of
    the array (the case of a chunk number that reached 512). *)
Theorem every_scan_is_short :
  (exists t,
      mark_objArray ASSERT ObjArrayMarkingStride is_objArray should_be_sliced
                    objArray_length scan_words (Z.to_nat len) array = Done t
      /\ Forall (short_scan ObjArrayMarkingStride len) (scanned t))
  /\ (forall r t0 t',
        process_obj ASSERT ObjArrayMarkingStride is_objArray should_be_sliced
                    objArray_length scan_words array empty_task = Done (r, t0) ->
        runs ASSERT ObjArrayMarkingStride is_objArray objArray_length scan_words t0 t' ->
        Forall (short_scan ObjArrayMarkingStride len) (scanned t')).
Proof.
  destruct (process_obj_start ASSERT ObjArrayMarkingStride is_objArray
              should_be_sliced objArray_length scan_words array len
              array_encodable array_is_objArray array_should_be_sliced
              array_length len_range stride_range)
    as (r & t0 & last & new & Hrun & Ht0 & Hlast & Hgood & _ & Hw & _).
  destruct (process_obj_closed empty_task)
    as (c' & p' & last' & new' & Hrun' & Hc' & Hp' & Hl & Hb & Hcov & Hstop & _).
  assert (Hq0 : Forall (good_entry array len 30) (task_queue t0)).
  { rewrite Ht0. cbn [task_queue]. now apply Forall_rev. }
  assert (Hs0 : Forall (short_scan ObjArrayMarkingStride len) (scanned t0)).
  { rewrite Hrun in Hrun'. apply Done_inj in Hrun'.
    injection Hrun' as _ Ht0'. rewrite Ht0'. cbn [scanned empty_task app].
    constructor; [|constructor].
    unfold short_scan. cbn [fst snd].
    rewrite keep_splitting_spec in Hstop by trivial.
    pose proof (pow2_pos p' ltac:(lia)) as Hx.
    apply andb_false_iff in Hstop as [H1|H2].
    - left. rewrite Z.gtb_ltb in H1. apply Z.ltb_ge in H1. nia.
    - right. apply Z.ltb_ge in H2. nia. }
  split.
  - unfold mark_objArray. rewrite Hrun. cbn [obind snd].
    destruct (drain_spec ASSERT ObjArrayMarkingStride is_objArray objArray_length
                scan_words array len array_encodable array_is_objArray
                array_length len_range stride_range (Z.to_nat len) t0 Hq0
                ltac:(lia)) as (t & Hd & _ & _).
    exists t. split; [exact Hd|].
    eapply runs_short; [eapply drain_runs; exact Hd | exact Hq0 | exact Hs0].
  - intros r' t0' t' Hr Hruns. rewrite Hrun in Hr. apply Done_inj in Hr.
    injection Hr as _ <-.
    eapply runs_short; [exact Hruns | exact Hq0 | exact Hs0].
Qed.
End SlicingCalls.

(** X13.  A descriptor whose chunk ends beyond the array: a debug build
    aborts on one of the two sanity assertions of [process_slice]; a
    product build does not notice and hands [scan_objArray] a range
    that ends beyond the array. *)
Theorem process_slice_beyond_array
    (ObjArrayMarkingStride : Z) (is_objArray : Z -> bool)
    (objArray_length : Z -> Z) (scan_words : Z -> Z -> Z -> Z)
    (array len c p : Z) (t : G1CMTask) :
  encodable array -> is_objArray array = true -> objArray_length array = len ->
  0 < ObjArrayMarkingStride < 2 ^ 31 ->
  1 <= c < 1024 -> 0 <= p <= 30 -> len < c * 2 ^ p < 2 ^ 31 ->
  is_fatal (process_slice true ObjArrayMarkingStride is_objArray objArray_length
                          scan_words array c p t) = true
  /\ exists r t' from,
       process_slice false ObjArrayMarkingStride is_objArray objArray_length
                     scan_words array c p t = Done (r, t')
       /\ scanned t' = scanned t ++ [(array, from, c * 2 ^ p)].
Proof.
  intros Henc Hobj Hlen Hs Hc Hp Hover.
  assert (Harith : forall n : nat, Z.of_nat n <= p ->
            0 < 2 ^ Z.of_nat n /\ 0 < 2 ^ (p - Z.of_nat n)
            /\ c * 2 ^ Z.of_nat n * 2 ^ (p - Z.of_nat n) = c * 2 ^ p).
  { intros n Hn. split; [apply pow2_pos; lia|]. split; [apply pow2_pos; lia|].
    rewrite <- Z.mul_assoc, <- Z.pow_add_r by lia. do 2 f_equal. lia. }
  split.
  - destruct (slice_split_loop_closed true ObjArrayMarkingStride array Henc Hs
                loop_fuel c p t Hc Hp ltac:(unfold loop_fuel; lia))
      as (n & Hn & Hcn & Hrun & _).
    destruct (Harith n Hn) as (Hn0 & Hx & Hend).
    unfold process_slice, vmassert. rewrite Hobj, Hlen.
    replace (ObjArrayMarkingStride >? 0) with true by (symmetry; apply Z.gtb_lt; lia).
    cbn [obind]. rewrite Hrun. cbn [obind].
    set (c' := c * 2 ^ Z.of_nat n) in *. set (p' := p - Z.of_nat n) in *.
    rewrite (int_shl_1 p') by (unfold p'; lia).
    rewrite (int_sub_exact c' 1) by (unfold is_int; nia).
    rewrite (int_mul_exact (c' - 1)) by (unfold is_int; nia).
    rewrite (int_mul_exact c') by (unfold is_int; nia).
    rewrite Hend.
    destruct ((0 <=? (c' - 1) * 2 ^ p') && ((c' - 1) * 2 ^ p' <? len));
      cbn [obind]; [|reflexivity].
    replace (c * 2 ^ p <=? len) with false by (symmetry; apply Z.leb_gt; lia).
    rewrite andb_false_r. reflexivity.
  - destruct (slice_split_loop_closed false ObjArrayMarkingStride array Henc Hs
                loop_fuel c p t Hc Hp ltac:(unfold loop_fuel; lia))
      as (n & Hn & Hcn & Hrun & _).
    destruct (Harith n Hn) as (Hn0 & Hx & Hend).
    unfold process_slice, vmassert.
    cbn [obind]. rewrite Hrun. cbn [obind].
    set (c' := c * 2 ^ Z.of_nat n) in *. set (p' := p - Z.of_nat n) in *.
    rewrite (int_shl_1 p') by (unfold p'; lia).
    rewrite (int_sub_exact c' 1) by (unfold is_int; nia).
    rewrite (int_mul_exact (c' - 1)) by (unfold is_int; nia).
    rewrite (int_mul_exact c') by (unfold is_int; nia).
    rewrite Hend.
    destruct (push_all_fields (left_halves array c p n) t) as (_ & _ & Q3 & _).
    eexists _, _, _. split; [reflexivity|].
    unfold scan_objArray. cbn [scanned]. rewrite Q3. reflexivity.
Qed.

(** Instances: the array of 1000 elements at address 4096, stride 16;
    for [process_slice] its first chunk of 512 elements, [(1, 9)]. *)

Lemma process_slice_closed_form_witness :
  exists n : nat,
    (n <= 9)%nat /\ Z.of_nat n <= 9
    /\ process_slice true 16 (fun _ => true) (fun _ => 1000)
                     (fun _ from to => to - from) 4096 1 9 empty_task
       = Done (1 * 2 ^ 9 - (1 * 2 ^ Z.of_nat n - 1) * 2 ^ (9 - Z.of_nat n),
               Task (rev (left_halves 4096 1 9 n) ++ [])
                    ([] ++ left_halves 4096 1 9 n)
                    ([] ++ [(4096, (1 * 2 ^ Z.of_nat n - 1) * 2 ^ (9 - Z.of_nat n),
                             1 * 2 ^ 9)])
                    [])
    /\ (2 ^ (9 - Z.of_nat n) <= 16 \/ 512 <= 1 * 2 ^ Z.of_nat n)
    /\ (forall k : nat, (k < n)%nat ->
          16 < 2 ^ (9 - Z.of_nat k) /\ 1 * 2 ^ Z.of_nat k < 512).
Proof.
  apply (process_slice_closed_form true 16 (fun _ => true) (fun _ => 1000)
           (fun _ from to => to - from) 4096 1000 ltac:(split; [lia | reflexivity])
           eq_refl eq_refl ltac:(lia) ltac:(lia) 1 9 empty_task); lia.
Defined.

Lemma process_slice_splits_iff_witness :
  exists r t' rest,
    process_slice true 16 (fun _ => true) (fun _ => 1000)
                  (fun _ from to => to - from) 4096 1 9 empty_task = Done (r, t')
    /\ pushed t' = [] ++ slice_entry 4096 (2 * 1 - 1) (9 - 1) :: rest.
Proof.
  apply (process_slice_splits_iff true 16 (fun _ => true) (fun _ => 1000)
           (fun _ from to => to - from) 4096 1000 ltac:(split; [lia | reflexivity])
           eq_refl eq_refl ltac:(lia) ltac:(lia) 1 9 empty_task); lia.
Defined.

Lemma process_obj_scans_tail_witness :
  exists last new,
    process_obj true 16 (fun _ => true) (fun _ => true) (fun _ => 1000)
                (fun _ from to => to - from) 4096 empty_task
      = Done (1000 - last,
              Task (rev new ++ []) ([] ++ new) ([] ++ [(4096, last, 1000)])
                   ([] ++ [4096]))
    /\ 0 <= last < 1000
    /\ (length new <= 9)%nat
    /\ (1000 - last <= 16 \/ 511 * (1000 - last) <= last).
Proof.
  apply (process_obj_scans_tail true 16 (fun _ => true) (fun _ => true)
           (fun _ => 1000) (fun _ from to => to - from) 4096 1000
           ltac:(split; [lia | reflexivity]) eq_refl eq_refl eq_refl
           ltac:(lia) ltac:(lia) empty_task).
Defined.

Lemma process_obj_splits_iff_witness :
  exists r t' rest,
    process_obj true 16 (fun _ => true) (fun _ => true) (fun _ => 1000)
                (fun _ from to => to - from) 4096 empty_task = Done (r, t')
    /\ pushed t' = [] ++ slice_entry 4096 1 (covering_power 1000 - 1) :: rest.
Proof.
  apply (process_obj_splits_iff true 16 (fun _ => true) (fun _ => true)
           (fun _ => 1000) (fun _ from to => to - from) 4096 1000
           ltac:(split; [lia | reflexivity]) eq_refl eq_refl eq_refl
           ltac:(lia) ltac:(lia) empty_task).
  reflexivity.
Defined.

Lemma every_scan_is_short_witness :
  exists t,
    mark_objArray true 16 (fun _ => true) (fun _ => true) (fun _ => 1000)
                  (fun _ from to => to - from) (Z.to_nat 1000) 4096 = Done t
    /\ Forall (short_scan 16 1000) (scanned t).
Proof.
  apply (every_scan_is_short true 16 (fun _ => true) (fun _ => true)
           (fun _ => 1000) (fun _ from to => to - from) 4096 1000
           ltac:(split; [lia | reflexivity]) eq_refl eq_refl eq_refl
           ltac:(lia) ltac:(lia)).
Defined.

Lemma process_slice_beyond_array_witness :
  is_fatal (process_slice true 16 (fun _ => true) (fun _ => 1000)
                          (fun _ from to => to - from) 4096 2 9 empty_task) = true
  /\ exists r t' from,
       process_slice false 16 (fun _ => true) (fun _ => 1000)
                     (fun _ from to => to - from) 4096 2 9 empty_task = Done (r, t')
       /\ scanned t' = [] ++ [(4096, from, 2 * 2 ^ 9)].
Proof.
  apply (process_slice_beyond_array 16 (fun _ => true) (fun _ => 1000)
           (fun _ from to => to - from) 4096 1000 2 9 empty_task
           ltac:(split; [lia | reflexivity]) eq_refl eq_refl);
    lia.
Defined.

(** ** Outcomes *)

Lemma obind_done {A B : Type} (m : outcome A) (k : A -> outcome B) (r : B) :
  obind m k = Done r -> exists a, m = Done a /\ k a = Done r.
Proof.
  destruct m as [a| |]; cbn [obind]; [|discriminate|discriminate].
  intros Hk. exists a. split; [reflexivity | exact Hk].
Qed.

(** ** Adjusting two slots *)

Section AdjustPointerOrder.
Context {T : Type} `{CompressedOops.HeapOop T}.
Variable markWord : Type.
Variable is_marked : markWord -> bool.
Variable SlidingForwarding : Type.
Variable is_in : Z -> bool.
Variable is_object_aligned : Z -> bool.
Variable ASSERT : bool.
Variable forwardee : SlidingForwarding -> MarkSweep.memory T markWord -> Z -> Z.
Variable forwarding : SlidingForwarding.

(** The forwardee of an object is read off the headers. *)
Hypothesis forwardee_reads_headers :
  forall (m m' : MarkSweep.memory T markWord) (obj : Z),
    MarkSweep.marks m = MarkSweep.marks m' ->
    forwardee forwarding m obj = forwardee forwarding m' obj.

(** What [do_oop_work] does to a slot depends on that slot and on the
    headers only. *)
Lemma do_oop_work_local (p : Z) (m m1 m' : MarkSweep.memory T markWord) :
  MarkSweep.slots m1 !! p = MarkSweep.slots m !! p ->
  MarkSweep.marks m1 = MarkSweep.marks m ->
  MarkSweep.do_oop_work markWord is_marked SlidingForwarding is_in
    is_object_aligned ASSERT forwardee forwarding p m = Done m' ->
  exists v',
    m' = MarkSweep.Memory (<[p := v']> (MarkSweep.slots m)) (MarkSweep.marks m)
    /\ MarkSweep.do_oop_work markWord is_marked SlidingForwarding is_in
         is_object_aligned ASSERT forwardee forwarding p m1
       = Done (MarkSweep.Memory (<[p := v']> (MarkSweep.slots m1)) (MarkSweep.marks m1)).
Proof.
  intros Hslot Hmarks.
  unfold MarkSweep.do_oop_work, MarkSweep.adjust_pointer, MarkSweep.oop_load,
    MarkSweep.mark.
  rewrite Hslot, Hmarks.
  destruct (MarkSweep.slots m !! p) as [v|] eqn:Hv; cbn [obind]; [|discriminate].
  cbv zeta.
  rewrite (forwardee_reads_headers m1 m (CompressedOops.decode_not_null v) Hmarks).
  assert (Hsame : forall r : outcome (MarkSweep.memory T markWord),
            r = Done m' -> r = Done m ->
            exists v',
              m' = MarkSweep.Memory (<[p := v']> (MarkSweep.slots m)) (MarkSweep.marks m)
              /\ Done m1
                 = Done (MarkSweep.Memory (<[p := v']> (MarkSweep.slots m1))
                                          (MarkSweep.marks m1))).
  { intros r -> [= ->]. exists v. rewrite !insert_id by congruence.
    destruct m, m1; split; reflexivity. }
  destruct (CompressedOops.is_null v); cbn [negb].
  { intros Hr. destruct (Hsame _ Hr eq_refl) as (v' & E1 & E2).
    rewrite Hmarks in E2. exists v'. split; [exact E1 | exact E2]. }
  destruct (vmassert ASSERT (Done (is_in (CompressedOops.decode_not_null v))) _)
    as [[]| |]; cbn [obind]; try discriminate.
  destruct (MarkSweep.marks m !! CompressedOops.decode_not_null v) as [w|];
    cbn [obind]; [|discriminate].
  destruct (is_marked w).
  - destruct (vmassert ASSERT (Done (negb (_ =? 0))) _) as [[]| |];
      cbn [obind]; try discriminate.
    destruct (vmassert ASSERT (Done (is_object_aligned _)) _) as [[]| |];
      cbn [obind]; try discriminate.
    intros [= <-]. unfold MarkSweep.oop_store. rewrite ?Hmarks.
    eexists. split; reflexivity.
  - intros Hr. destruct (Hsame _ Hr eq_refl) as (v' & E1 & E2).
    rewrite Hmarks in E2. exists v'. split; [exact E1 | exact E2].
Qed.

Lemma do_oop_work_swap (p q : Z) (m m2 : MarkSweep.memory T markWord) :
  p <> q ->
  (m1 <- MarkSweep.do_oop_work markWord is_marked SlidingForwarding is_in
           is_object_aligned ASSERT forwardee forwarding p m ;;
   MarkSweep.do_oop_work markWord is_marked SlidingForwarding is_in
     is_object_aligned ASSERT forwardee forwarding q m1) = Done m2 ->
  (m1 <- MarkSweep.do_oop_work markWord is_marked SlidingForwarding is_in
           is_object_aligned ASSERT forwardee forwarding q m ;;
   MarkSweep.do_oop_work markWord is_marked SlidingForwarding is_in
     is_object_aligned ASSERT forwardee forwarding p m1) = Done m2.
Proof.
  intros Hpq Hseq.
  apply obind_done in Hseq as (m1 & Hp & Hq).
  destruct (do_oop_work_local p m m m1 eq_refl eq_refl Hp) as (vp & E1 & _).
  subst m1.
  destruct (do_oop_work_local q
              (MarkSweep.Memory (<[p := vp]> (MarkSweep.slots m)) (MarkSweep.marks m))
              m m2) as (vq & E2 & Hq');
    [cbn [MarkSweep.slots]; symmetry; apply lookup_insert_ne; exact Hpq
    | reflexivity | exact Hq |].
  cbn [MarkSweep.slots MarkSweep.marks] in E2.
  rewrite Hq'. cbn [obind].
  destruct (do_oop_work_local p m
              (MarkSweep.Memory (<[q := vq]> (MarkSweep.slots m)) (MarkSweep.marks m))
              (MarkSweep.Memory (<[p := vp]> (MarkSweep.slots m)) (MarkSweep.marks m)))
    as (vp' & E1' & Hp');
    [cbn [MarkSweep.slots]; apply lookup_insert_ne; congruence
    | reflexivity | exact Hp |].
  rewrite Hp'. cbn [MarkSweep.slots MarkSweep.marks].
  assert (vp' = vp).
  { apply (f_equal (fun x => MarkSweep.slots x !! p)) in E1'.
    cbn [MarkSweep.slots] in E1'. rewrite !lookup_insert_eq in E1'. congruence. }
  subst vp' m2. f_equal. f_equal. apply insert_insert_ne. exact Hpq.
Qed.

(** X14.  The closure may visit two distinct slots in either order: when one
    order completes, so does the other, and memory ends up the same.
    (The forwardee of an object is assumed to be read off the headers,
    which [adjust_pointer] does not write.) *)
Theorem do_oop_work_commutes (p q : Z) (m m2 : MarkSweep.memory T markWord) :
  p <> q ->
  (m1 <- MarkSweep.do_oop_work markWord is_marked SlidingForwarding is_in
           is_object_aligned ASSERT forwardee forwarding p m ;;
   MarkSweep.do_oop_work markWord is_marked SlidingForwarding is_in
     is_object_aligned ASSERT forwardee forwarding q m1) = Done m2
  <->
  (m1 <- MarkSweep.do_oop_work markWord is_marked SlidingForwarding is_in
           is_object_aligned ASSERT forwardee forwarding q m ;;
   MarkSweep.do_oop_work markWord is_marked SlidingForwarding is_in
     is_object_aligned ASSERT forwardee forwarding p m1) = Done m2.
Proof.
  intros Hpq. split; apply do_oop_work_swap; congruence.
Qed.
End AdjustPointerOrder.

(** An instance: two slots that refer to the same forwarded object. *)
Lemma do_oop_work_commutes_witness :
  (m1 <- MarkSweep.do_oop_work (T := Z) (H := CompressedOops.oop_HeapOop)
           Z (fun w => Z.land w 3 =? 3) unit (fun _ => true)
           (fun o => o mod 8 =? 0) true (fun _ _ obj => obj - 64) tt 108
           (MarkSweep.Memory ({[100 := 4096; 108 := 4096]} : gmap Z Z)
                             ({[4096 := 3]} : gmap Z Z)) ;;
   MarkSweep.do_oop_work (T := Z) (H := CompressedOops.oop_HeapOop)
     Z (fun w => Z.land w 3 =? 3) unit (fun _ => true)
     (fun o => o mod 8 =? 0) true (fun _ _ obj => obj - 64) tt 100 m1)
  = Done (MarkSweep.Memory ({[100 := 4032; 108 := 4032]} : gmap Z Z)
                           ({[4096 := 3]} : gmap Z Z)).
Proof.
  apply (proj1 (do_oop_work_commutes (T := Z) (H := CompressedOops.oop_HeapOop)
                  Z (fun w => Z.land w 3 =? 3) unit (fun _ => true)
                  (fun o => o mod 8 =? 0) true (fun _ _ obj => obj - 64) tt
                  (fun _ _ _ _ => eq_refl) 100 108
                  (MarkSweep.Memory ({[100 := 4096; 108 := 4096]} : gmap Z Z)
                                    ({[4096 := 3]} : gmap Z Z))
                  _ ltac:(lia))).
  vm_compute. reflexivity.
Defined.

(** ** The driver of a full collection, continued *)

(** Projecting a field out of a chain of setters. *)
Ltac state_fields :=
  cbn beta iota zeta delta
    [heap prev_used_regions derived_pointers_active _ref_processor
     _total_invocations _preserved_count_max _preserved_marks _preserved_count
     _preserved_scratch _preserved_overflow_stack _marking_stack _objarray_stack
     trace log set_heap set_marking_stack set_ref_processor
     set_derived_pointers_active increment_invocations save_used_regions
     allocate_stacks deallocate_stacks mark_sweep_phase2 mark_sweep_phase3
     mark_sweep_phase4 restore_marks].

Ltac state_fields_in Hyp :=
  cbn beta iota zeta delta
    [heap prev_used_regions derived_pointers_active _ref_processor
     _total_invocations _preserved_count_max _preserved_marks _preserved_count
     _preserved_scratch _preserved_overflow_stack _marking_stack _objarray_stack
     trace log set_heap set_marking_stack set_ref_processor
     set_derived_pointers_active increment_invocations save_used_regions
     allocate_stacks deallocate_stacks mark_sweep_phase2 mark_sweep_phase3
     mark_sweep_phase4 restore_marks] in Hyp.

Section CollectionState.
Context {H R : Type}.
Variable gch : collaborators H R.

Lemma phase1_fields (ASSERT clear_all_softrefs : bool) (s s1 : state H R) :
  mark_sweep_phase1 ASSERT gch clear_all_softrefs s = Done s1 ->
  _total_invocations s1 = _total_invocations s
  /\ derived_pointers_active s1 = derived_pointers_active s
  /\ prev_used_regions s1 = prev_used_regions s
  /\ _preserved_count_max s1 = _preserved_count_max s
  /\ _preserved_marks s1 = _preserved_marks s.
Proof.
  unfold mark_sweep_phase1, vmassert.
  cbn [heap _marking_stack log set_heap set_marking_stack].
  destruct ASSERT; cbn [obind].
  - destruct (snd (process_discovered_references _ _ _)); cbn [obind];
      [|discriminate].
    intros [= <-]. repeat split.
  - intros [= <-]. repeat split.
Qed.

(** X16.  A collection that completes leaves a clean slate: no reference
    processor installed, the marking stack, the object-array stack and
    the overflow stack of preserved marks empty; the invocation count
    is one higher (as a 32-bit unsigned), the used regions saved are
    those of the heap on entry, and where there is a derived-pointer
    table it is left inactive. *)
Theorem collection_leaves_clean_slate (ASSERT : bool) (rp : Z)
    (clear_all_softrefs : bool) (s s' : state H R) :
  invoke_at_safepoint ASSERT gch rp clear_all_softrefs s = Done s' ->
  _ref_processor s' = 0
  /\ _total_invocations s' = (_total_invocations s + 1) mod 2 ^ 32
  /\ _marking_stack s' = []
  /\ _objarray_stack s' = []
  /\ _preserved_overflow_stack s' = []
  /\ prev_used_regions s' = Some (used_regions gch (heap s))
  /\ derived_pointers_active s'
     = (if COMPILER2_OR_JVMCI gch then false else derived_pointers_active s).
Proof.
  intros Hrun. unfold invoke_at_safepoint in Hrun.
  do 4 (apply obind_unit_done in Hrun). cbv zeta in Hrun.
  apply obind_done in Hrun as (s1 & Hp1 & Hrun).
  apply obind_done in Hrun as (s2 & Hdp & Hrun).
  apply phase1_fields in Hp1 as (Hti & Hd1 & Hpr & _).
  state_fields_in Hti. state_fields_in Hd1. state_fields_in Hpr.
  assert (Hs2 : _total_invocations s2 = (_total_invocations s + 1) mod 2 ^ 32
                /\ prev_used_regions s2 = Some (used_regions gch (heap s))
                /\ derived_pointers_active s2
                   = (if COMPILER2_OR_JVMCI gch then false
                      else derived_pointers_active s)).
  { destruct (COMPILER2_OR_JVMCI gch).
    - apply obind_unit_done in Hdp. apply Done_inj in Hdp. subst s2.
      state_fields. auto.
    - apply Done_inj in Hdp. subst s2. state_fields. auto. }
  destruct Hs2 as (Hti2 & Hpr2 & Hd2).
  clear Hdp Hti Hd1 Hpr. apply Done_inj in Hrun. subst s'.
  set (s13 := log EvStringDedupFlush _).
  assert (H13 : _total_invocations s13 = _total_invocations s2
                /\ prev_used_regions s13 = prev_used_regions s2
                /\ derived_pointers_active s13 = derived_pointers_active s2
                /\ _marking_stack s13 = [] /\ _objarray_stack s13 = []
                /\ _preserved_overflow_stack s13 = []).
  { unfold s13. state_fields. repeat split. }
  destruct H13 as (Hti13 & Hpr13 & Hd13 & Hms & Hos & Hov).
  clearbody s13.
  destruct (young_used gch (heap s13) =? 0); state_fields;
    rewrite <- Hti2, <- Hpr2, <- Hd2, <- Hti13, <- Hpr13, <- Hd13;
    repeat split; assumption.
Qed.

(** X17.  With a scratch block, [allocate_stacks] points the preserved marks
    at it, starts with none recorded, and sets the capacity to the
    number of whole records that fit into the block: that many records
    do not overrun it, and one more would. *)
Theorem scratch_capacity_fits (s : state H R) (addr num_words : Z) :
  gather_scratch gch (heap s) = Some (addr, num_words) ->
  0 < sizeof_PreservedMark gch ->
  0 <= num_words * HeapWordSize gch < 2 ^ 64 ->
  _preserved_marks (allocate_stacks gch s) = addr
  /\ _preserved_count (allocate_stacks gch s) = 0
  /\ _preserved_scratch (allocate_stacks gch s) = []
  /\ 0 <= _preserved_count_max (allocate_stacks gch s)
  /\ _preserved_count_max (allocate_stacks gch s) * sizeof_PreservedMark gch
     <= num_words * HeapWordSize gch
  /\ num_words * HeapWordSize gch
     < (_preserved_count_max (allocate_stacks gch s) + 1) * sizeof_PreservedMark gch.
Proof.
  intros Hscratch Hsize Hfits.
  unfold allocate_stacks. rewrite Hscratch.
  cbn [_preserved_marks _preserved_count _preserved_scratch _preserved_count_max log].
  rewrite to_uintptr_small by exact Hfits.
  split; [reflexivity|]. split; [reflexivity|]. split; [reflexivity|].
  pose proof (Z.div_mod (num_words * HeapWordSize gch) (sizeof_PreservedMark gch)
                ltac:(lia)) as Hdm.
  pose proof (Z.mod_pos_bound (num_words * HeapWordSize gch)
                (sizeof_PreservedMark gch) Hsize) as Hm.
  split; [apply Z.div_pos; lia|]. split; nia.
Qed.
End CollectionState.

Lemma collection_leaves_clean_slate_witness :
  exists s',
    invoke_at_safepoint true sample_gch 4096 false sample_state = Done s'
    /\ _ref_processor s' = 0
    /\ _total_invocations s' = 1
    /\ _marking_stack s' = []
    /\ derived_pointers_active s' = false.
Proof.
  eexists. split; [vm_compute; reflexivity|].
  destruct (collection_leaves_clean_slate sample_gch true 4096 false sample_state _
              ltac:(vm_compute; reflexivity))
    as (Hrp & Hti & Hms & _ & _ & _ & Hdp).
  repeat split; assumption.
Defined.

Lemma scratch_capacity_fits_witness :
  _preserved_marks (allocate_stacks scratch_gch sample_state) = 8192
  /\ _preserved_count_max (allocate_stacks scratch_gch sample_state) = 50.
Proof.
  destruct (scratch_capacity_fits scratch_gch sample_state 8192 100 eq_refl
              ltac:(cbn; lia) ltac:(cbn; lia))
    as (Hmarks & _ & _ & _ & Hle & Hlt).
  split; [exact Hmarks|].
  change (sizeof_PreservedMark scratch_gch) with 16 in Hle, Hlt.
  change (HeapWordSize scratch_gch) with 8 in Hle, Hlt.
  lia.
Defined.
